(** * rqbit web UI: schedulers, request pipeline and upload query

    A shallow embedding of [crates/librqbit/webui/src/index.tsx]:

    - the values the script handles at run time (TypeScript annotations
      are erased, so a field declared [string] can hold any value);
    - [JSON.parse], which [makeRequest] applies to response bodies;
    - [makeRequest] with its three exits;
    - the registry tick of [Root] and the stats tick of [Torrent];
    - the selection list of [FileSelectionModal] and the query it builds;
    - [customSetInterval] and [loopUntilSuccess] as transition systems
      over the host's timer table.

    Definitions come first, the properties follow. *)

From Stdlib Require Import ZArith QArith Ascii String.
From stdpp Require Import gmap strings list fin_maps pretty sorting.

Set Warnings "-register-all".
Local Close Scope Q_scope.
Local Open Scope string_scope.
Local Open Scope list_scope.
Local Open Scope nat_scope.

(** ** Run-time values *)

Module JS.

(** What [JSON.parse] builds.  Numbers are kept as the exact rational
    they denote, in lowest terms, so that structural equality is
    numeric equality.  Rounding to binary64 and the sign of zero are
    not represented; every number the script itself writes (0, 2, 500,
    1000, 5000, 10000) is exact.  Object members are kept in source
    order. *)
Inductive Json : Type :=
| Null
| Bool (b : bool)
| Number (x : Q)
| String (s : string)
| Array (xs : list Json)
| Object (props : list (string * Json)).

(** A value of type [any], as far as the script meets them:
    [undefined], or one of the above. *)
Inductive Value : Type :=
| Undefined
| Val (j : Json).

Definition num (z : Z) : Value := Val (Number (inject_Z z)).

(** [ToBoolean].  Arrays and objects are always truthy. *)
Definition truthy (v : Value) : bool :=
  match v with
  | Undefined | Val Null => false
  | Val (Bool b) => b
  | Val (Number x) => negb (Qeq_bool x (inject_Z 0))
  | Val (String s) => negb (bool_decide (s = EmptyString))
  | Val (Array _) | Val (Object _) => true
  end.

(** [v === undefined] and [v === null]. *)
Definition is_undefined (v : Value) : bool :=
  match v with Undefined => true | _ => false end.

Definition is_null (v : Value) : bool :=
  match v with Val Null => true | _ => false end.

(** Own-property lookup: a repeated key takes the value written
    last. *)
Fixpoint lookup_prop (k : string) (props : list (string * Json)) : option Json :=
  match props with
  | [] => None
  | (k', v) :: rest =>
      match lookup_prop k rest with
      | Some w => Some w
      | None => if bool_decide (k' = k) then Some v else None
      end
  end.

(** [j.k] for a key [k] that no built-in prototype defines (the script
    reads [human_readable] this way): [null] throws a [TypeError]
    ([None]), an object answers with its own property or [undefined],
    and every other value answers [undefined]. *)
Definition get (j : Json) (k : string) : option Value :=
  match j with
  | Null => None
  | Object props =>
      Some (match lookup_prop k props with
            | Some v => Val v
            | None => Undefined
            end)
  | _ => Some Undefined
  end.

(** The two forms of an arrow function without parameters.  [() => e]
    returns [e]; [() => { e }] evaluates the expression statement [e]
    and, having no [return], returns [undefined]. *)
Inductive Arrow : Type :=
| Concise (e : Value)
| Block (stmt : Value).

Definition call (f : Arrow) : Value :=
  match f with
  | Concise e => e
  | Block _ => Undefined
  end.

(** What a promise settles to. *)
Inductive Settled (A E : Type) : Type :=
| Fulfilled (a : A)
| Rejected (e : E).
Global Arguments Fulfilled {A E} a.
Global Arguments Rejected {A E} e.

End JS.

(** ** [JSON.parse]

    A recursive-descent reader for the JSON grammar (ECMA-404) as
    [JSON.parse] accepts it.  Strings are byte strings in UTF-8, as a
    response body arrives. *)

Module JSON.

Import JS.

Definition code (c : ascii) : N := N_of_ascii c.

Definition is_ws (c : ascii) : bool :=
  let n := code c in
  ((n =? 32) || (n =? 9) || (n =? 10) || (n =? 13))%N.

Fixpoint skip_ws (s : string) : string :=
  match s with
  | String.String c r => if is_ws c then skip_ws r else s
  | EmptyString => s
  end.

Definition digit (c : ascii) : option Z :=
  let n := code c in
  if ((48 <=? n) && (n <=? 57))%N then Some (Z.of_N n - 48)%Z else None.

Definition hex_digit (c : ascii) : option N :=
  let n := code c in
  if ((48 <=? n) && (n <=? 57))%N then Some (n - 48)%N
  else if ((65 <=? n) && (n <=? 70))%N then Some (n - 55)%N
  else if ((97 <=? n) && (n <=? 102))%N then Some (n - 87)%N
  else None.

(** *** Numbers *)

(** Reads a maximal run of digits: the accumulated value, how many
    digits were read, and the rest. *)
Fixpoint digits (s : string) (acc : Z) (count : nat) : Z * nat * string :=
  match s with
  | String.String c r =>
      match digit c with
      | Some d => digits r (acc * 10 + d)%Z (S count)
      | None => (acc, count, s)
      end
  | EmptyString => (acc, count, s)
  end.

(** [int], after the optional minus sign: a lone [0] or a run of
    digits that does not start with [0]. *)
Definition int_part (s : string) : option (Z * string) :=
  match s with
  | String.String c r =>
      match digit c with
      | Some 0%Z => Some (0%Z, r)
      | Some d => let '(v, _, r') := digits r d 1 in Some (v, r')
      | None => None
      end
  | EmptyString => None
  end.

(** [frac]: the mantissa extended by the fraction digits and their
    number. *)
Definition frac_part (m : Z) (s : string) : option (Z * nat * string) :=
  match s with
  | String.String "." r =>
      let '(v, n, r') := digits r m 0 in
      match n with
      | O => None
      | _ => Some (v, n, r')
      end
  | _ => Some (m, O, s)
  end.

Definition exp_digits (s : string) : option (Z * string) :=
  let '(v, n, r) := digits s 0 0 in
  match n with
  | O => None
  | _ => Some (v, r)
  end.

Definition exp_part (s : string) : option (Z * string) :=
  match s with
  | String.String c r =>
      if ((code c =? 101) || (code c =? 69))%N then
        match r with
        | String.String "+" r' => exp_digits r'
        | String.String "-" r' =>
            match exp_digits r' with
            | Some (e, r'') => Some ((- e)%Z, r'')
            | None => None
            end
        | _ => exp_digits r
        end
      else Some (0%Z, s)
  | EmptyString => Some (0%Z, s)
  end.

Definition decimal (m e : Z) : Q :=
  Qred (Qmult (inject_Z m) (Qpower (inject_Z 10) e)).

Definition number (s : string) : option (Json * string) :=
  let '(neg, s1) :=
    match s with
    | String.String "-" r => (true, r)
    | _ => (false, s)
    end in
  match int_part s1 with
  | None => None
  | Some (i, s2) =>
      match frac_part i s2 with
      | None => None
      | Some (m, nfrac, s3) =>
          match exp_part s3 with
          | None => None
          | Some (e, s4) =>
              let m' := if neg then (- m)%Z else m in
              Some (Number (decimal m' (e - Z.of_nat nfrac)), s4)
          end
      end
  end.

(** *** Strings *)

(** A string body is read into items: a byte copied from the source,
    or a UTF-16 code unit written as [\uXXXX]. *)
Inductive item : Type :=
| Byte (c : ascii)
| Unit16 (u : N).

Definition simple_escape (c : ascii) : option ascii :=
  let n := code c in
  if (n =? 34)%N then Some c                       (* quote *)
  else if (n =? 92)%N then Some c                  (* backslash *)
  else if (n =? 47)%N then Some c                  (* slash *)
  else if (n =? 98)%N then Some (ascii_of_N 8)     (* b: backspace *)
  else if (n =? 102)%N then Some (ascii_of_N 12)   (* f: form feed *)
  else if (n =? 110)%N then Some (ascii_of_N 10)   (* n: line feed *)
  else if (n =? 114)%N then Some (ascii_of_N 13)   (* r: carriage return *)
  else if (n =? 116)%N then Some (ascii_of_N 9)    (* t: tab *)
  else None.

Definition hex4 (a b c d : ascii) : option N :=
  match hex_digit a, hex_digit b, hex_digit c, hex_digit d with
  | Some x, Some y, Some z, Some w => Some (((x * 16 + y) * 16 + z) * 16 + w)%N
  | _, _, _, _ => None
  end.

(** The characters after the opening quote, up to the closing one. *)
Fixpoint string_items (s : string) : option (list item * string) :=
  match s with
  | EmptyString => None
  | String.String c r =>
      if (code c =? 34)%N then Some ([], r)
      else if (code c =? 92)%N then
        match r with
        | String.String e r1 =>
            if (code e =? 117)%N then
              match r1 with
              | String.String h1 (String.String h2 (String.String h3 (String.String h4 r2))) =>
                  match hex4 h1 h2 h3 h4 with
                  | Some u =>
                      match string_items r2 with
                      | Some (its, r3) => Some (Unit16 u :: its, r3)
                      | None => None
                      end
                  | None => None
                  end
              | _ => None
              end
            else
              match simple_escape e with
              | Some b =>
                  match string_items r1 with
                  | Some (its, r3) => Some (Byte b :: its, r3)
                  | None => None
                  end
              | None => None
              end
        | EmptyString => None
        end
      else if (code c <? 32)%N then None
      else
        match string_items r with
        | Some (its, r3) => Some (Byte c :: its, r3)
        | None => None
        end
  end.

(** UTF-8 for a code point; a lone surrogate is written with the same
    three-byte pattern. *)
Definition utf8 (p : N) : string :=
  let b (n : N) := ascii_of_N n in
  let lead (tag shift : N) := b (tag + p / shift)%N in
  let cont (shift : N) := b (128 + (p / shift) mod 64)%N in
  if (p <? 128)%N then String.String (b p) EmptyString
  else if (p <? 2048)%N then
    String.String (lead 192 64)%N (String.String (cont 1%N) EmptyString)
  else if (p <? 65536)%N then
    String.String (lead 224 4096)%N
      (String.String (cont 64%N) (String.String (cont 1%N) EmptyString))
  else
    String.String (lead 240 262144)%N
      (String.String (cont 4096%N)
         (String.String (cont 64%N) (String.String (cont 1%N) EmptyString))).

Definition is_high (u : N) : bool := ((55296 <=? u) && (u <=? 56319))%N.
Definition is_low (u : N) : bool := ((56320 <=? u) && (u <=? 57343))%N.

Fixpoint items_to_string (its : list item) : string :=
  match its with
  | [] => EmptyString
  | Byte c :: rest => String.String c (items_to_string rest)
  | Unit16 u :: rest =>
      match rest with
      | Unit16 v :: rest' =>
          if is_high u && is_low v
          then utf8 (65536 + (u - 55296) * 1024 + (v - 56320))%N +:+ items_to_string rest'
          else utf8 u +:+ items_to_string rest
      | _ => utf8 u +:+ items_to_string rest
      end
  end.

Definition string_lit (s : string) : option (string * string) :=
  match string_items s with
  | Some (its, r) => Some (items_to_string its, r)
  | None => None
  end.

(** *** Values *)

Definition literal (word : string) (v : Json) (s : string) : option (Json * string) :=
  if String.prefix word s
  then Some (v, String.substring (String.length word) (String.length s - String.length word) s)
  else None.

(** [value fuel s] reads one value after optional white space.  Every
    unit of fuel spent is paid for by a character consumed, except for
    the step from a container to its first element, so twice the
    length of the text is enough fuel (see [parse]). *)
Fixpoint value (fuel : nat) (s : string) : option (Json * string) :=
  match fuel with
  | O => None
  | S fuel' =>
      match skip_ws s with
      | EmptyString => None
      | String.String c r as s' =>
          let n := code c in
          if (n =? 123)%N then                       (* { *)
            match skip_ws r with
            | String.String "}" r' => Some (Object [], r')
            | r' => members fuel' r' []
            end
          else if (n =? 91)%N then                   (* [ *)
            match skip_ws r with
            | String.String "]" r' => Some (Array [], r')
            | r' => elements fuel' r' []
            end
          else if (n =? 34)%N then                   (* opening quote *)
            match string_lit r with
            | Some (str, r') => Some (JS.String str, r')
            | None => None
            end
          else if (n =? 116)%N then literal "true" (Bool true) s'
          else if (n =? 102)%N then literal "false" (Bool false) s'
          else if (n =? 110)%N then literal "null" Null s'
          else number s'
      end
  end

with elements (fuel : nat) (s : string) (acc : list Json) : option (Json * string) :=
  match fuel with
  | O => None
  | S fuel' =>
      match value fuel' s with
      | None => None
      | Some (v, r) =>
          match skip_ws r with
          | String.String "," r' => elements fuel' r' (v :: acc)
          | String.String "]" r' => Some (Array (rev (v :: acc)), r')
          | _ => None
          end
      end
  end

with members (fuel : nat) (s : string) (acc : list (string * Json)) : option (Json * string) :=
  match fuel with
  | O => None
  | S fuel' =>
      match skip_ws s with
      | String.String c r =>
          match (if (code c =? 34)%N then string_lit r else None) with
          | None => None
          | Some (k, r1) =>
              match skip_ws r1 with
              | String.String ":" r2 =>
                  match value fuel' r2 with
                  | None => None
                  | Some (v, r3) =>
                      match skip_ws r3 with
                      | String.String "," r4 => members fuel' r4 ((k, v) :: acc)
                      | String.String "}" r4 => Some (Object (rev ((k, v) :: acc)), r4)
                      | _ => None
                      end
                  end
              | _ => None
              end
          end
      | _ => None
      end
  end.

(** [JSON.parse(text)]: one value, white space around it, nothing
    else.  [None] stands for the [SyntaxError] it throws. *)
Definition parse (text : string) : option Json :=
  match value (2 * String.length text + 2) text with
  | Some (v, r) =>
      match skip_ws r with
      | EmptyString => Some v
      | _ => None
      end
  | None => None
  end.

End JSON.

(** ** Data model *)

(** [interface ErrorType].  Optional fields are [None] when absent.
    [text] is declared [string], but [makeRequest] stores whatever the
    server wrote under [human_readable], so it holds any JSON value. *)
Record ErrorType : Type := {
  error_id : option Z;
  method : option string;
  path : option string;
  status : option Z;
  statusText : option string;
  text : JS.Json;
}.

(** What a rejected request carries: the record [makeRequest] builds, or
    an exception of the host that passes through untouched. *)
Inductive Exception : Type :=
| SyntaxError
| TypeError.

Inductive Reason : Type :=
| ErrorRecord (e : ErrorType)
| Raw (x : Exception).

(** [interface TorrentId], [TorrentFile], [TorrentDetails],
    [AddTorrentResponse].  Byte and piece counters are integers; the
    model compares them exactly, which is what [==] does on numbers the
    host represents exactly (below 2^53). *)
Record TorrentId : Type := {
  torrent_id : Z;
  info_hash : string;
}.

Record TorrentFile : Type := {
  name : string;
  file_length : Z;
  included : bool;
}.

Record TorrentDetails : Type := {
  details_info_hash : string;
  files : list TorrentFile;
}.

Record AddTorrentResponse : Type := {
  added_id : option Z;
  details : TorrentDetails;
}.

(** [interface TorrentStats]. *)
Record PeerStats : Type := {
  queued : Z;
  connecting : Z;
  live : Z;
  seen : Z;
  dead : Z;
  not_needed : Z;
}.

Record Snapshot : Type := {
  have_bytes : Z;
  downloaded_and_checked_bytes : Z;
  downloaded_and_checked_pieces : Z;
  fetched_bytes : Z;
  uploaded_bytes : Z;
  initially_needed_bytes : Z;
  remaining_bytes : Z;
  total_bytes : Z;
  total_piece_download_ms : Z;
  peer_stats : PeerStats;
}.

Record Duration : Type := {
  secs : Z;
  nanos : Z;
}.

Record Speed : Type := {
  mbps : Q;
  human_readable : string;
}.

Record TorrentStats : Type := {
  snapshot : Snapshot;
  average_piece_download_time : Duration;
  download_speed : Speed;
  all_time_download_speed : Speed;
  time_remaining : option string;
}.

(** What the upload dialog holds as [data]: the text typed at the
    prompt, or the bytes of the chosen file. *)
Inductive UploadPayload : Type :=
| MagnetOrUrl (link : string)
| TorrentFileBytes (bytes : list ascii).

(** ** The host's [fetch] *)

Record RequestInit : Type := {
  init_method : string;
  init_headers : list (string * string);
  init_body : option UploadPayload;
}.

(** A [Response]: the status line, which arrives with the headers, and
    the body.  Reading the body can fail after the headers have arrived
    (the connection breaks): [response_body_fails] says so, and
    [response_body] is the text a successful read gives. *)
Record Response : Type := {
  response_status : Z;
  response_statusText : string;
  response_body : string;
  response_body_fails : bool;
}.

(** [response.ok]: the status is in the range 200 to 299. *)
Definition ok (r : Response) : bool :=
  bool_decide (200 ≤ response_status r ≤ 299)%Z.

(** [response.text()] and [response.json()].  Both reject with a
    [TypeError] when the body cannot be read; [json] rejects with a
    [SyntaxError] when the text is not JSON. *)
Definition response_text (r : Response) : JS.Settled string Exception :=
  if response_body_fails r then JS.Rejected TypeError
  else JS.Fulfilled (response_body r).

Definition response_json (r : Response) : JS.Settled JS.Json Exception :=
  match response_text r with
  | JS.Rejected x => JS.Rejected x
  | JS.Fulfilled body =>
      match JSON.parse body with
      | Some v => JS.Fulfilled v
      | None => JS.Rejected SyntaxError
      end
  end.

(** ** [Root]: the request pipeline and the registry tick *)

Record RootState : Type := {
  closeableError : option ErrorType;
  otherError : option Reason;
  torrents : option (list TorrentId);
  torrentsLoading : bool;
}.

Definition Root_initial : RootState :=
  {| closeableError := None; otherError := None;
     torrents := None; torrentsLoading := false |}.

Definition setCloseableError (e : option ErrorType) (st : RootState) : RootState :=
  {| closeableError := e; otherError := otherError st;
     torrents := torrents st; torrentsLoading := torrentsLoading st |}.

Definition setOtherError (e : option Reason) (st : RootState) : RootState :=
  {| closeableError := closeableError st; otherError := e;
     torrents := torrents st; torrentsLoading := torrentsLoading st |}.

Definition setTorrents (l : option (list TorrentId)) (st : RootState) : RootState :=
  {| closeableError := closeableError st; otherError := otherError st;
     torrents := l; torrentsLoading := torrentsLoading st |}.

Definition setTorrentsLoading (b : bool) (st : RootState) : RootState :=
  {| closeableError := closeableError st; otherError := otherError st;
     torrents := torrents st; torrentsLoading := b |}.

Definition set_text (v : JS.Json) (e : ErrorType) : ErrorType :=
  {| error_id := error_id e; method := method e; path := path e;
     status := status e; statusText := statusText e; text := v |}.

Definition set_status (r : Response) (e : ErrorType) : ErrorType :=
  {| error_id := error_id e; method := method e; path := path e;
     status := Some (response_status r);
     statusText := Some (response_statusText r); text := text e |}.

(** The [options] that [makeRequest] passes to [fetch]. *)
Definition options_of (method_ : string) (data : option UploadPayload) : RequestInit :=
  {| init_method := method_;
     init_headers := [("Accept", "application/json")];
     init_body := data |}.

Section Host.

(** The origin prefix, the network, and [JSON.stringify(v, null, 2)]
    belong to the host. [fetch] answers [None] when its promise
    rejects (no response arrived). *)
Variable apiUrl : string.
Variable fetch : string → RequestInit → option Response.
Variable stringify : JS.Json → string.

(** [makeRequest(method, path, data, showError)], threading the state
    that [setCloseableError] writes.  [await response.text()] stands
    before the [try]: when it rejects, the exception leaves
    [makeRequest] as it is, like the one of [await response.json()]. *)
Definition makeRequest (method_ path_ : string) (data : option UploadPayload)
    (showError : bool) (st : RootState)
  : JS.Settled JS.Json Reason * RootState :=
  let url := apiUrl +:+ path_ in
  let options := options_of method_ data in
  let maybeShowError (e : ErrorType) (st : RootState) :=
    if showError then setCloseableError (Some e) st else st in
  let error :=
    {| error_id := None; method := Some method_; path := Some path_;
       status := None; statusText := None;
       text := JS.String EmptyString |} in
  match fetch url options with
  | None =>
      let error := set_text (JS.String "network error") error in
      (JS.Rejected (ErrorRecord error), maybeShowError error st)
  | Some response =>
      let error := set_status response error in
      if negb (ok response) then
        match response_text response with
        | JS.Rejected x => (JS.Rejected (Raw x), st)
        | JS.Fulfilled errorBody =>
            let error :=
              match JSON.parse errorBody with
              | Some json =>
                  match JS.get json "human_readable" with
                  | Some (JS.Val human_readable) => set_text human_readable error
                  | Some JS.Undefined => set_text (JS.String (stringify json)) error
                  | None => set_text (JS.String errorBody) error
                  end
              | None => set_text (JS.String errorBody) error
              end in
            (JS.Rejected (ErrorRecord error), maybeShowError error st)
        end
      else
        match response_json response with
        | JS.Fulfilled result => (JS.Fulfilled result, st)
        | JS.Rejected x => (JS.Rejected (Raw x), st)
        end
  end.

End Host.

(** The answer to [GET /torrents] at the type the script declares for
    it, [{ torrents: Array<TorrentId> }]. *)
Record TorrentList : Type := {
  list_torrents : list TorrentId;
}.

(** [refreshTorrents], given what
    [makeRequest('GET', '/torrents', null, false)] settled to.  The flag
    goes up before the request and down in [finally]; a rejection
    passes through. *)
Definition refreshTorrents (settled : JS.Settled TorrentList Reason)
    (st : RootState) : JS.Settled TorrentList Reason * RootState :=
  let st := setTorrentsLoading true st in
  let st := setTorrentsLoading false st in
  match settled with
  | JS.Fulfilled torrents =>
      (JS.Fulfilled torrents, setTorrents (Some (list_torrents torrents)) st)
  | JS.Rejected e => (JS.Rejected e, st)
  end.

(** The callback [Root] hands to [customSetInterval], with its [try] and
    [catch]: the new state and the delay it returns. *)
Definition Root_interval : Z := 500.

Definition Root_tick (settled : JS.Settled TorrentList Reason)
    (st : RootState) : RootState * JS.Value :=
  match refreshTorrents settled st with
  | (JS.Fulfilled _, st) => (setOtherError None st, JS.num Root_interval)
  | (JS.Rejected e, st) => (setOtherError (Some e) st, JS.num 5000)
  end.

(** ** [Torrent]: the stats tick *)

Definition torrentIsDone (stats : TorrentStats) : bool :=
  bool_decide (have_bytes (snapshot stats) = total_bytes (snapshot stats)).

Definition defaultStats : TorrentStats :=
  {| snapshot :=
       {| have_bytes := 0; downloaded_and_checked_bytes := 0;
          downloaded_and_checked_pieces := 0; fetched_bytes := 0;
          uploaded_bytes := 0; initially_needed_bytes := 0;
          remaining_bytes := 0; total_bytes := 0;
          total_piece_download_ms := 0;
          peer_stats := {| queued := 0; connecting := 0; live := 0;
                           seen := 0; dead := 0; not_needed := 0 |} |};
     average_piece_download_time := {| secs := 0; nanos := 0 |};
     download_speed := {| mbps := inject_Z 0; human_readable := EmptyString |};
     all_time_download_speed := {| mbps := inject_Z 0; human_readable := EmptyString |};
     time_remaining := Some EmptyString |}.

(** [update], given what [getTorrentStats] settled to: [statsResponse]
    after the call and the delay the promise resolves to. *)
Definition update (settled : JS.Settled TorrentStats Reason)
    (statsResponse : TorrentStats) : TorrentStats * JS.Value :=
  let errorInterval := 10000%Z in
  let liveInterval := 500%Z in
  let finishedInterval := 5000%Z in
  match settled with
  | JS.Fulfilled stats =>
      (stats, JS.num (if torrentIsDone stats then finishedInterval else liveInterval))
  | JS.Rejected e => (statsResponse, JS.num errorInterval)
  end.

(** ** [FileSelectionModal]: the selection list and the upload query *)

(** [Array.prototype.includes] and [Array.prototype.join] on a list of
    indices; an index prints in decimal. *)
Definition includes (l : list nat) (x : nat) : bool := bool_decide (x ∈ l).

Definition join (sep : string) (l : list nat) : string :=
  String.concat sep (pretty <$> l).

(** [(fileList || []).map((_, id) => id)], the effect that runs whenever
    [fileList] changes. *)
Definition reset (fileList : option (list TorrentFile)) : list nat :=
  imap (λ id _, id) (default [] fileList).

Definition handleToggleFile (selectedFiles : list nat) (fileIndex : nat) : list nat :=
  if includes selectedFiles fileIndex
  then filter (λ index, index ≠ fileIndex) selectedFiles
  else selectedFiles ++ [fileIndex].

(** [fileList.map] is used as a loop over the indices that folds
    [allPresent]. *)
Definition getSelectedFilesQueryParam (fileList : list TorrentFile)
    (selectedFiles : list nat) : string :=
  let allPresent :=
    foldl (λ allPresent id, allPresent && includes selectedFiles id) true
      (imap (λ id _, id) fileList) in
  if allPresent then EmptyString else "&only_files=" +:+ join "," selectedFiles.

(** The [url] that [handleUpload] posts to. *)
Definition handleUpload_url (fileList : list TorrentFile)
    (selectedFiles : list nat) : string :=
  "/torrents?overwrite=true" +:+ getSelectedFilesQueryParam fileList selectedFiles.

(** The [disabled] attribute of the OK button. *)
Definition OK_disabled (fileListLoading uploading : bool)
    (selectedFiles : list nat) : bool :=
  fileListLoading || uploading || bool_decide (length selectedFiles = 0).

(** A click on OK: nothing when the button is disabled, else the URL
    posted. *)
Definition click_OK (fileListLoading uploading : bool)
    (fileList : list TorrentFile) (selectedFiles : list nat) : option string :=
  if OK_disabled fileListLoading uploading selectedFiles then None
  else Some (handleUpload_url fileList selectedFiles).

(** The list after the reset for [fileList] and a series of clicks on
    check boxes. *)
Definition after_toggles (fileList : list TorrentFile) (clicks : list nat) : list nat :=
  foldl handleToggleFile (reset (Some fileList)) clicks.

(** What [only_files] would hold with the indices in ascending order. *)
Definition ascending_value (selectedFiles : list nat) : string :=
  join "," (merge_sort Nat.le selectedFiles).

(** ** The host's timers *)

Module Timers.

(** The timers one scheduler has set and that have not fired or been
    cleared yet, each with its delay, and the next handle [setTimeout]
    gives out.  Handles are never reused; timers of other code are not
    in the table, so the handles here count 1, 2, ... *)
Record t : Type := {
  pending : gmap nat JS.Value;
  next : nat;
}.

Definition empty : t := {| pending := ∅; next := 1 |}.

Definition setTimeout (delay : JS.Value) (h : t) : nat * t :=
  (next h, {| pending := <[next h := delay]> (pending h); next := S (next h) |}).

(** [clearTimeout(id)]; [id] is [None] for [undefined].  Clearing a
    handle that is not pending does nothing. *)
Definition clearTimeout (id : option nat) (h : t) : t :=
  match id with
  | Some i => {| pending := delete i (pending h); next := next h |}
  | None => h
  end.

(** The timer [id] fires: it leaves the table. *)
Definition fire (id : nat) (h : t) : option t :=
  match pending h !! id with
  | Some _ => Some {| pending := delete id (pending h); next := next h |}
  | None => None
  end.

End Timers.

(** What the host can do to a scheduler: fire a pending timer, settle
    the promise of a call in flight, or run the returned handle. *)
Inductive Event : Type :=
| Fire (id : nat)
| Settle (r : JS.Settled JS.Value JS.Value)
| Clear.

(** ** [customSetInterval] *)

Module CustomSetInterval.

(** The closure's variables, the host's timers, the number of calls of
    [asyncCallback] whose promise is not settled yet, and the number
    of calls so far. *)
Record state : Type := {
  host : Timers.t;
  timeoutId : option nat;
  currentInterval : JS.Value;
  in_flight : nat;
  calls : nat;
}.

Definition scheduleNext (s : state) : state :=
  let '(id, h) := Timers.setTimeout (currentInterval s) (host s) in
  {| host := h; timeoutId := Some id; currentInterval := currentInterval s;
     in_flight := in_flight s; calls := calls s |}.

(** [executeCallback] up to its [await]: [asyncCallback] is called. *)
Definition executeCallback_call (s : state) : state :=
  {| host := host s; timeoutId := timeoutId s;
     currentInterval := currentInterval s;
     in_flight := S (in_flight s); calls := S (calls s) |}.

(** [executeCallback] after its [await].  A rejection propagates out
    of the [await]; [null] and [undefined] are assigned and then the
    function throws; anything else is assigned and the next timer is
    set. *)
Definition executeCallback_resume (r : JS.Settled JS.Value JS.Value)
    (s : state) : state :=
  let s := {| host := host s; timeoutId := timeoutId s;
              currentInterval := currentInterval s;
              in_flight := pred (in_flight s); calls := calls s |} in
  match r with
  | JS.Rejected _ => s
  | JS.Fulfilled v =>
      let s := {| host := host s; timeoutId := timeoutId s;
                  currentInterval := v;
                  in_flight := in_flight s; calls := calls s |} in
      if JS.is_null v || JS.is_undefined v then s else scheduleNext s
  end.

Definition clearCustomInterval (s : state) : state :=
  {| host := Timers.clearTimeout (timeoutId s) (host s);
     timeoutId := timeoutId s; currentInterval := currentInterval s;
     in_flight := in_flight s; calls := calls s |}.

(** The state in which [customSetInterval(asyncCallback, interval)]
    returns. *)
Definition customSetInterval (interval : Z) : state :=
  scheduleNext
    {| host := Timers.empty; timeoutId := None;
       currentInterval := JS.num interval; in_flight := 0; calls := 0 |}.

Definition step (s : state) (ev : Event) : option state :=
  match ev with
  | Fire id =>
      match Timers.fire id (host s) with
      | Some h =>
          Some (executeCallback_call
                  {| host := h; timeoutId := timeoutId s;
                     currentInterval := currentInterval s;
                     in_flight := in_flight s; calls := calls s |})
      | None => None
      end
  | Settle r =>
      match in_flight s with
      | O => None
      | S _ => Some (executeCallback_resume r s)
      end
  | Clear => Some (clearCustomInterval s)
  end.

Fixpoint run (s : state) (evs : list Event) : option state :=
  match evs with
  | [] => Some s
  | ev :: rest =>
      match step s ev with
      | Some s' => run s' rest
      | None => None
      end
  end.

(** The delay of the timer [timeoutId] names, if it is pending. *)
Definition scheduled_delay (s : state) : option JS.Value :=
  match timeoutId s with
  | Some id => Timers.pending (host s) !! id
  | None => None
  end.

(** The effects of [Root] and of [Torrent]. *)
Definition Root_effect : state := customSetInterval Root_interval.
Definition Torrent_effect : state := customSetInterval 0.

End CustomSetInterval.

(** ** [loopUntilSuccess] *)

Module LoopUntilSuccess.

Record state : Type := {
  host : Timers.t;
  timeoutId : option nat;
  interval : Z;
  in_flight : nat;
  calls : nat;
}.

(** [scheduleNext(i)]; [i] is [Undefined] when the argument is left
    out. *)
Definition scheduleNext (i : JS.Value) (s : state) : state :=
  let delay := if negb (JS.is_undefined i) then i else JS.num (interval s) in
  let '(id, h) := Timers.setTimeout delay (host s) in
  {| host := h; timeoutId := Some id; interval := interval s;
     in_flight := in_flight s; calls := calls s |}.

Definition executeCallback_call (s : state) : state :=
  {| host := host s; timeoutId := timeoutId s; interval := interval s;
     in_flight := S (in_flight s); calls := S (calls s) |}.

(** The two handlers given to [then], as written. *)
Definition onFulfilled : JS.Arrow := JS.Block (JS.Val (JS.Bool false)).
Definition onRejected : JS.Arrow := JS.Block (JS.Val (JS.Bool true)).

Definition executeCallback_resume (r : JS.Settled JS.Value JS.Value)
    (s : state) : state :=
  let s := {| host := host s; timeoutId := timeoutId s; interval := interval s;
              in_flight := pred (in_flight s); calls := calls s |} in
  let retry :=
    match r with
    | JS.Fulfilled _ => JS.call onFulfilled
    | JS.Rejected _ => JS.call onRejected
    end in
  if JS.truthy retry then scheduleNext JS.Undefined s else s.

Definition clearCustomInterval (s : state) : state :=
  {| host := Timers.clearTimeout (timeoutId s) (host s);
     timeoutId := timeoutId s; interval := interval s;
     in_flight := in_flight s; calls := calls s |}.

(** The state in which [loopUntilSuccess(callback, interval)]
    returns. *)
Definition loopUntilSuccess (interval : Z) : state :=
  scheduleNext (JS.num 0)
    {| host := Timers.empty; timeoutId := None; interval := interval;
       in_flight := 0; calls := 0 |}.

Definition step (s : state) (ev : Event) : option state :=
  match ev with
  | Fire id =>
      match Timers.fire id (host s) with
      | Some h =>
          Some (executeCallback_call
                  {| host := h; timeoutId := timeoutId s; interval := interval s;
                     in_flight := in_flight s; calls := calls s |})
      | None => None
      end
  | Settle r =>
      match in_flight s with
      | O => None
      | S _ => Some (executeCallback_resume r s)
      end
  | Clear => Some (clearCustomInterval s)
  end.

Fixpoint run (s : state) (evs : list Event) : option state :=
  match evs with
  | [] => Some s
  | ev :: rest =>
      match step s ev with
      | Some s' => run s' rest
      | None => None
      end
  end.

(** The operation's successive results are [outcomes].  The host fires
    the timer that is due and the call it starts settles with the next
    result, until no timer is left or the results run out. *)
Fixpoint play (outcomes : list (JS.Settled JS.Value JS.Value)) (s : state) : state :=
  match outcomes with
  | [] => s
  | r :: rest =>
      match timeoutId s with
      | Some id =>
          match step s (Fire id) with
          | Some s1 => play rest (executeCallback_resume r s1)
          | None => s
          end
      | None => s
      end
  end.

End LoopUntilSuccess.

(** ** [getLargestFileName], [getCompletionETA], [formatBytesToGB] *)

(** [reduce] without an initial value starts from the first file; the
    comparison is strict, so on equal lengths the later file is kept. *)
Definition keep_larger (prev current : TorrentFile) : TorrentFile :=
  if bool_decide (file_length prev > file_length current)%Z then prev else current.

Definition getLargestFileName (torrentDetails : TorrentDetails) : string :=
  match files torrentDetails with
  | [] => "Loading..."
  | first :: rest => name (foldl keep_larger first rest)
  end.

(** [time_remaining] is an object or [null]; an object is truthy. *)
Definition getCompletionETA (stats : TorrentStats) : string :=
  match time_remaining stats with
  | Some human => human
  | None => "N/A"
  end.

(** [Number.prototype.toFixed(2)] on the exact value [num / den], with
    [den > 0] and the value below 10^21: the integer [n] with [n / 100]
    nearest to the value, the larger one on a tie, written with two
    decimals; a negative value is formatted from its opposite behind a
    minus sign. *)
Definition hundredths (num den : Z) : Z := ((200 * num + den) / (2 * den))%Z.

Definition digit_char (d : Z) : ascii := ascii_of_N (48 + Z.to_N d).

Definition two_digits (k : Z) : string :=
  String.String (digit_char (k / 10)) (String.String (digit_char (k mod 10)) EmptyString).

Definition fixed2 (n : Z) : string :=
  pretty (Z.to_N (n / 100)) +:+ "." +:+ two_digits (n mod 100).

Definition toFixed2 (num den : Z) : string :=
  if (num <? 0)%Z then "-" +:+ fixed2 (hundredths (- num) den)
  else fixed2 (hundredths num den).

(** [bytes] is an integer the host holds exactly (below 2^53 in
    magnitude); dividing it by 2^30 is then exact in binary64, so
    [toFixed] sees the value [bytes / 2^30] itself. *)
Definition formatBytesToGB (bytes : Z) : string :=
  toFixed2 bytes (1024 * 1024 * 1024).

(** ** [TorrentsList] and series of ticks *)

(** What [TorrentsList] renders: the spinner, an empty fragment, the
    "No existing torrents" message, or one [Torrent] per entry. *)
Inductive TorrentsView : Type :=
| ShowSpinner
| ShowNothing
| ShowNoTorrents
| ShowRows (rows : list TorrentId).

Definition TorrentsList (torrents_ : option (list TorrentId)) (loading : bool)
  : TorrentsView :=
  match torrents_ with
  | None => if loading then ShowSpinner else ShowNothing
  | Some [] => ShowNoTorrents
  | Some rows => ShowRows rows
  end.

(** The state of [Root] after a series of registry ticks, and
    [statsResponse] after a series of stats polls, given what each
    request settled to. *)
Definition Root_ticks (outcomes : list (JS.Settled TorrentList Reason))
    (st : RootState) : RootState :=
  foldl (λ st r, (Root_tick r st).1) st outcomes.

Definition Torrent_polls (outcomes : list (JS.Settled TorrentStats Reason))
    (statsResponse : TorrentStats) : TorrentStats :=
  foldl (λ stats r, (update r stats).1) statsResponse outcomes.

(** ** [Torrent]: the details effect *)

Definition defaultDetails : TorrentDetails :=
  {| details_info_hash := EmptyString; files := [] |}.

(** The callback given to [loopUntilSuccess] awaits
    [getTorrentDetails(torrent.id).then(updateDetailsResponse)]: a
    fetched value is stored and the promise resolves to [undefined]; a
    rejection passes through.  The successive requests settle to
    [outcomes]; the host fires the timer that is due and the call it
    starts settles with the next one. *)
Fixpoint Torrent_details (outcomes : list (JS.Settled TorrentDetails Reason))
    (s : LoopUntilSuccess.state) (detailsResponse : TorrentDetails)
  : LoopUntilSuccess.state * TorrentDetails :=
  match outcomes with
  | [] => (s, detailsResponse)
  | r :: rest =>
      match LoopUntilSuccess.timeoutId s with
      | Some id =>
          match LoopUntilSuccess.step s (Fire id) with
          | Some s1 =>
              match r with
              | JS.Fulfilled fetched =>
                  Torrent_details rest
                    (LoopUntilSuccess.executeCallback_resume
                       (JS.Fulfilled JS.Undefined) s1)
                    fetched
              | JS.Rejected _ =>
                  Torrent_details rest
                    (LoopUntilSuccess.executeCallback_resume
                       (JS.Rejected JS.Undefined) s1)
                    detailsResponse
              end
          | None => (s, detailsResponse)
          end
      | None => (s, detailsResponse)
      end
  end.

(** ** [MagnetInput], [FileInput], [UploadButton], [FileSelectionModal]:
    the upload dialog *)

(** What the parent holds as [data]: [null], [undefined] (the first
    entry of an empty [FileList]), or a payload. *)
Inductive UploadData : Type :=
| NoData
| NoFile
| Payload (p : UploadPayload).

(** [MagnetInput.onClick]: [prompt] answers [null] on Cancel. *)
Definition MagnetInput_onClick (m : option string) : UploadData :=
  match m with
  | None => NoData
  | Some EmptyString => NoData
  | Some link => Payload (MagnetOrUrl link)
  end.

(** [FileInput.onFileChange]: [inputRef.current.files[0]]. *)
Definition FileInput_onFileChange (chosen : list (list ascii)) : UploadData :=
  match chosen with
  | [] => NoFile
  | file :: _ => Payload (TorrentFileBytes file)
  end.

(** [data !== null]. *)
Definition showModal (data : UploadData) : bool :=
  match data with
  | NoData => false
  | _ => true
  end.

(** [Object.is] on two values of [data], which decides whether setting
    the state is a change: [null], [undefined] and strings compare by
    value; a [File] is an object and every change of the file input
    brings a new one, so a file is never the value already held. *)
Definition same_data (new old : UploadData) : bool :=
  match new, old with
  | NoData, NoData => true
  | NoFile, NoFile => true
  | Payload (MagnetOrUrl a), Payload (MagnetOrUrl b) => bool_decide (a = b)
  | _, _ => false
  end.

(** The state of one upload button with its dialog, and the requests it
    has sent that have not settled yet. *)
Record Dialog : Type := {
  dlg_data : UploadData;
  dlg_fileList : option (list TorrentFile);
  dlg_loading : bool;
  dlg_selectedFiles : list nat;
  dlg_uploading : bool;
  dlg_uploadError : option Reason;
  previews_in_flight : nat;
  uploads_in_flight : nat;
}.

Definition Dialog_initial : Dialog :=
  {| dlg_data := NoData; dlg_fileList := None; dlg_loading := false;
     dlg_selectedFiles := []; dlg_uploading := false; dlg_uploadError := None;
     previews_in_flight := 0; uploads_in_flight := 0 |}.

(** [setFileList], followed by the effect of [FileSelectionModal] that
    depends on [fileList]: it runs when the value changed, which a
    fetched array always does and [null] does only after an array. *)
Definition setFileList (l : option (list TorrentFile)) (d : Dialog) : Dialog :=
  {| dlg_data := dlg_data d; dlg_fileList := l; dlg_loading := dlg_loading d;
     dlg_selectedFiles :=
       match l, dlg_fileList d with
       | None, None => dlg_selectedFiles d
       | _, _ => reset l
       end;
     dlg_uploading := dlg_uploading d; dlg_uploadError := dlg_uploadError d;
     previews_in_flight := previews_in_flight d;
     uploads_in_flight := uploads_in_flight d |}.

Definition setData (data : UploadData) (d : Dialog) : Dialog :=
  {| dlg_data := data; dlg_fileList := dlg_fileList d; dlg_loading := dlg_loading d;
     dlg_selectedFiles := dlg_selectedFiles d;
     dlg_uploading := dlg_uploading d; dlg_uploadError := dlg_uploadError d;
     previews_in_flight := previews_in_flight d;
     uploads_in_flight := uploads_in_flight d |}.

Definition setLoading (b : bool) (d : Dialog) : Dialog :=
  {| dlg_data := dlg_data d; dlg_fileList := dlg_fileList d; dlg_loading := b;
     dlg_selectedFiles := dlg_selectedFiles d;
     dlg_uploading := dlg_uploading d; dlg_uploadError := dlg_uploadError d;
     previews_in_flight := previews_in_flight d;
     uploads_in_flight := uploads_in_flight d |}.

Definition setSelectedFiles (l : list nat) (d : Dialog) : Dialog :=
  {| dlg_data := dlg_data d; dlg_fileList := dlg_fileList d;
     dlg_loading := dlg_loading d; dlg_selectedFiles := l;
     dlg_uploading := dlg_uploading d; dlg_uploadError := dlg_uploadError d;
     previews_in_flight := previews_in_flight d;
     uploads_in_flight := uploads_in_flight d |}.

Definition setUploadError (e : option Reason) (d : Dialog) : Dialog :=
  {| dlg_data := dlg_data d; dlg_fileList := dlg_fileList d;
     dlg_loading := dlg_loading d; dlg_selectedFiles := dlg_selectedFiles d;
     dlg_uploading := dlg_uploading d; dlg_uploadError := e;
     previews_in_flight := previews_in_flight d;
     uploads_in_flight := uploads_in_flight d |}.

(** [clear] of [UploadButton], which is also [onHide]. *)
Definition clear (d : Dialog) : Dialog :=
  setLoading false (setFileList None (setData NoData d)).

(** The effect of [UploadButton] that depends on [data]: nothing for
    [null], else the preview request is sent. *)
Definition preview_effect (d : Dialog) : Dialog :=
  match dlg_data d with
  | NoData => d
  | _ =>
      {| dlg_data := dlg_data d; dlg_fileList := dlg_fileList d;
         dlg_loading := dlg_loading d; dlg_selectedFiles := dlg_selectedFiles d;
         dlg_uploading := dlg_uploading d; dlg_uploadError := dlg_uploadError d;
         previews_in_flight := S (previews_in_flight d);
         uploads_in_flight := uploads_in_flight d |}
  end.

(** The rest of that effect, once the preview request has settled: the
    [try], the [catch] and the [finally]. *)
Definition preview_settled (r : JS.Settled AddTorrentResponse Reason)
    (d : Dialog) : Dialog :=
  let d :=
    match r with
    | JS.Fulfilled response => setFileList (Some (files (details response))) d
    | JS.Rejected _ => clear d
    end in
  setLoading false d.

(** What the dialog shows of the manifest: [fileList || []]. *)
Definition shown_files (d : Dialog) : list TorrentFile :=
  default [] (dlg_fileList d).

(** What a click on OK posts, if anything. *)
Definition OK_posts (d : Dialog) : option string :=
  click_OK (dlg_loading d) (dlg_uploading d) (shown_files d) (dlg_selectedFiles d).

(** The continuation of [handleUpload] once its request has settled. *)
Definition upload_settled (r : JS.Settled JS.Json Reason) (d : Dialog) : Dialog :=
  match r with
  | JS.Fulfilled _ => clear d
  | JS.Rejected e => setUploadError (Some e) d
  end.

(** What can happen to the dialog: the parent sets [data], a preview
    request settles, a check box that is shown is clicked, OK is
    clicked while enabled, an upload request settles, the dialog is
    hidden.  Setting [data] to the value it holds changes nothing and
    does not run the effect that depends on [data].  The events are not
    restricted to the orders the page allows (a preview is counted as
    sent even when its zero-delay timer would have been cleared first,
    [data] may be set while the dialog is open, a check box may be
    clicked while it is hidden): what holds of all runs here holds of
    the runs of the page. *)
Inductive DialogEvent : Type :=
| SetData (data : UploadData)
| PreviewSettled (r : JS.Settled AddTorrentResponse Reason)
| Toggle (fileIndex : nat)
| ClickOK
| UploadSettled (r : JS.Settled JS.Json Reason)
| Hide.

Definition Dialog_step (d : Dialog) (ev : DialogEvent) : option Dialog :=
  match ev with
  | SetData data =>
      if same_data data (dlg_data d) then Some d
      else Some (preview_effect (setData data d))
  | PreviewSettled r =>
      match previews_in_flight d with
      | O => None
      | S n =>
          Some (preview_settled r
                  {| dlg_data := dlg_data d; dlg_fileList := dlg_fileList d;
                     dlg_loading := dlg_loading d;
                     dlg_selectedFiles := dlg_selectedFiles d;
                     dlg_uploading := dlg_uploading d;
                     dlg_uploadError := dlg_uploadError d;
                     previews_in_flight := n;
                     uploads_in_flight := uploads_in_flight d |})
      end
  | Toggle fileIndex =>
      if dlg_loading d then None
      else if bool_decide (fileIndex < length (shown_files d))
      then Some (setSelectedFiles (handleToggleFile (dlg_selectedFiles d) fileIndex) d)
      else None
  | ClickOK =>
      match OK_posts d with
      | Some _ =>
          Some {| dlg_data := dlg_data d; dlg_fileList := dlg_fileList d;
                  dlg_loading := dlg_loading d;
                  dlg_selectedFiles := dlg_selectedFiles d;
                  dlg_uploading := dlg_uploading d;
                  dlg_uploadError := dlg_uploadError d;
                  previews_in_flight := previews_in_flight d;
                  uploads_in_flight := S (uploads_in_flight d) |}
      | None => None
      end
  | UploadSettled r =>
      match uploads_in_flight d with
      | O => None
      | S n =>
          Some (upload_settled r
                  {| dlg_data := dlg_data d; dlg_fileList := dlg_fileList d;
                     dlg_loading := dlg_loading d;
                     dlg_selectedFiles := dlg_selectedFiles d;
                     dlg_uploading := dlg_uploading d;
                     dlg_uploadError := dlg_uploadError d;
                     previews_in_flight := previews_in_flight d;
                     uploads_in_flight := n |})
      end
  | Hide => Some (clear d)
  end.

Fixpoint Dialog_run (d : Dialog) (evs : list DialogEvent) : option Dialog :=
  match evs with
  | [] => Some d
  | ev :: rest =>
      match Dialog_step d ev with
      | Some d' => Dialog_run d' rest
      | None => None
      end
  end.

(** ** [Error]: the alert *)

(** The children React is given: a text, a number, a [<strong>]
    element, the close button. *)
Inductive Node : Type :=
| Text (s : string)
| Num (x : Q)
| Strong (children : list Node)
| CloseButton.

(** What a component gives back: it throws, it renders nothing
    ([null]), or it renders an [Alert] with children. *)
Inductive Rendered : Type :=
| Throws
| RendersNull
| Alert (children : list Node).

(** A JSON value as a child: [null] and booleans render nothing, an
    array renders its elements, and an object is not a valid child
    ([None]: rendering throws). *)
Fixpoint child_of_json (j : JS.Json) : option (list Node) :=
  match j with
  | JS.Null | JS.Bool _ => Some []
  | JS.Number x => Some [Num x]
  | JS.String s => Some [Text s]
  | JS.Array xs =>
      (fix children (xs : list JS.Json) : option (list Node) :=
         match xs with
         | [] => Some []
         | x :: rest =>
             match child_of_json x, children rest with
             | Some a, Some b => Some (a ++ b)
             | _, _ => None
             end
         end) xs
  | JS.Object _ => None
  end.

Definition child_of_string (s : option string) : list Node :=
  match s with
  | Some text_ => [Text text_]
  | None => []
  end.

(** [Error({ error, remove })].  [error] is what was stored: [null], a
    record of [makeRequest], or an exception of the host, on which
    [method], [status] and [text] are all [undefined].  [x && y] is [x]
    when [x] is falsy: an empty [method] renders as the empty text and
    a [status] of 0 as the number 0. *)
Definition Error (error : option Reason) (remove : bool) : Rendered :=
  let button := if remove then [CloseButton] else [] in
  match error with
  | None => RendersNull
  | Some (Raw _) => Alert button
  | Some (ErrorRecord e) =>
      let method_part :=
        match method e with
        | None => []
        | Some EmptyString => [Text EmptyString]
        | Some m =>
            [Strong ([Text "Error calling "; Text m; Text " "]
                     ++ child_of_string (path e) ++ [Text ": "])]
        end in
      let status_part :=
        match status e with
        | None => []
        | Some 0%Z => [Num (inject_Z 0)]
        | Some code =>
            [Strong ([Num (inject_Z code); Text " "]
                     ++ child_of_string (statusText e) ++ [Text ": "])]
        end in
      match child_of_json (text e) with
      | Some text_part => Alert (method_part ++ status_part ++ text_part ++ button)
      | None => Throws
      end
  end.

(** ** Predicates the properties are stated with *)

(** What the unit of work of [customSetInterval] may settle to without
    a next timer being set: a rejection, [null] or [undefined]. *)
Definition fatal (r : JS.Settled JS.Value JS.Value) : bool :=
  match r with
  | JS.Rejected _ => true
  | JS.Fulfilled v => JS.is_null v || JS.is_undefined v
  end.

(** A request that failed. *)
Definition rejected {A E : Type} (r : JS.Settled A E) : Prop :=
  match r with
  | JS.Rejected _ => True
  | JS.Fulfilled _ => False
  end.

(** A selection for a manifest of [n] files: no index twice, every index
    below [n]. *)
Definition selection_ok (n : nat) (selectedFiles : list nat) : Prop :=
  NoDup selectedFiles ∧ Forall (λ i, i < n) selectedFiles.

(** The text of a JSON document and of its strings, written without
    quote characters in the source. *)
Definition dquote : string := String.String (ascii_of_N 34) EmptyString.
Definition quoted (s : string) : string := dquote +:+ s +:+ dquote.

(** The three situations of a [customSetInterval] scheduler: stopped (no
    timer, no call), armed (the timer [timeoutId] names is the only one
    pending, no call), running (one call in flight, no timer). *)
Definition stopped (s : CustomSetInterval.state) : Prop :=
  CustomSetInterval.in_flight s = 0
  ∧ Timers.pending (CustomSetInterval.host s) = ∅.

Definition armed (s : CustomSetInterval.state) : Prop :=
  CustomSetInterval.in_flight s = 0
  ∧ ∃ id, CustomSetInterval.timeoutId s = Some id
        ∧ Timers.pending (CustomSetInterval.host s)
          = {[ id := CustomSetInterval.currentInterval s ]}.

Definition running (s : CustomSetInterval.state) : Prop :=
  CustomSetInterval.in_flight s = 1
  ∧ Timers.pending (CustomSetInterval.host s) = ∅.

(** The situations of a [loopUntilSuccess] scheduler: before its only
    call (the timer set at construction is pending), or no timer at
    all. *)
Definition waiting (s : LoopUntilSuccess.state) : Prop :=
  LoopUntilSuccess.in_flight s = 0 ∧ LoopUntilSuccess.calls s = 0
  ∧ ∃ id delay, LoopUntilSuccess.timeoutId s = Some id
        ∧ Timers.pending (LoopUntilSuccess.host s) = {[ id := delay ]}.

Definition spent (s : LoopUntilSuccess.state) : Prop :=
  LoopUntilSuccess.calls s ≤ 1
  ∧ Timers.pending (LoopUntilSuccess.host s) = ∅.

(** The member [k] of a JSON object; [None] when [json] is not an object
    or has no such member. *)
Definition field (k : string) (json : JS.Json) : option JS.Json :=
  match json with
  | JS.Object props => JS.lookup_prop k props
  | _ => None
  end.

(** The record a rejected request carries, when it carries one. *)
Definition error_record {A : Type} (r : JS.Settled A Reason) : option ErrorType :=
  match r with
  | JS.Rejected (ErrorRecord e) => Some e
  | _ => None
  end.

(** A network that gives every request the same answer, and a stand-in
    for [JSON.stringify] in examples whose path never calls it. *)
Definition answering (r : option Response) : string → RequestInit → option Response :=
  λ _ _, r.

Definition stringify_unused : JS.Json → string := λ _, EmptyString.

Definition sample_stats (have total : Z) : TorrentStats :=
  {| snapshot :=
       {| have_bytes := have; downloaded_and_checked_bytes := have;
          downloaded_and_checked_pieces := 0; fetched_bytes := 0;
          uploaded_bytes := 0; initially_needed_bytes := total;
          remaining_bytes := total - have; total_bytes := total;
          total_piece_download_ms := 0;
          peer_stats := peer_stats (snapshot defaultStats) |};
     average_piece_download_time := {| secs := 0; nanos := 0 |};
     download_speed := download_speed defaultStats;
     all_time_download_speed := all_time_download_speed defaultStats;
     time_remaining := None |}.

Definition internal_server_error (body : string) : Response :=
  {| response_status := 500; response_statusText := "Internal Server Error";
     response_body := body; response_body_fails := false |}.

Definition status_ok (body : string) : Response :=
  {| response_status := 200; response_statusText := "OK"; response_body := body;
     response_body_fails := false |}.

(** What holds of the upload dialog at all times: the two flags are
    down, the selection fits the manifest shown, and without a manifest
    the selection is empty. *)
Definition Dialog_inv (d : Dialog) : Prop :=
  dlg_loading d = false ∧ dlg_uploading d = false
  ∧ selection_ok (length (shown_files d)) (dlg_selectedFiles d)
  ∧ (dlg_fileList d = None → dlg_selectedFiles d = []).

(** The upload error an event leaves behind. *)
Definition uploadError_after (ev : DialogEvent) (before : option Reason) : option Reason :=
  match ev with
  | UploadSettled (JS.Rejected e) => Some e
  | _ => before
  end.

Definition failed_upload (ev : DialogEvent) : Prop :=
  match ev with
  | UploadSettled (JS.Rejected _) => True
  | _ => False
  end.

(** A manifest of [n] files, for the examples. *)
Definition manifest (n : nat) : list TorrentFile :=
  replicate n {| name := "file"; file_length := 1024; included := true |}.

(** * Properties *)

(** ** [JSON.parse] on examples *)

Example parse_object :
  JSON.parse ("{" +:+ quoted "human_readable" +:+ ": " +:+ quoted "disk full"
              +:+ ", " +:+ quoted "status" +:+ ": 500}")
  = Some (JS.Object [("human_readable", JS.String "disk full");
                     ("status", JS.Number (inject_Z 500))]).
Proof. reflexivity. Qed.

Example parse_array :
  JSON.parse " [1.5e1, true, null, [], {}] "
  = Some (JS.Array [JS.Number (inject_Z 15); JS.Bool true; JS.Null;
                    JS.Array []; JS.Object []]).
Proof. reflexivity. Qed.

Example parse_rejects :
  JSON.parse "oops" = None ∧ JSON.parse EmptyString = None
  ∧ JSON.parse "[1,]" = None ∧ JSON.parse "01" = None
  ∧ JSON.parse "{} {}" = None.
Proof. by split_and!. Qed.

Example parse_null : JSON.parse " null" = Some JS.Null.
Proof. reflexivity. Qed.

(** ** The selection list *)

Section Selection.

Implicit Types (fileList : list TorrentFile) (selectedFiles clicks : list nat).
Implicit Types (i id n : nat).

Lemma reset_seq fileList : reset (Some fileList) = seq 0 (length fileList).
Proof.
  unfold reset; simpl.
  rewrite (imap_seq_0 fileList (λ j, j)).
  apply list_fmap_id.
Qed.

Lemma reset_no_manifest : reset None = [].
Proof. reflexivity. Qed.

Lemma includes_true selectedFiles i : includes selectedFiles i = true ↔ i ∈ selectedFiles.
Proof. unfold includes. apply bool_decide_eq_true. Qed.

Lemma includes_false selectedFiles i : includes selectedFiles i = false ↔ i ∉ selectedFiles.
Proof. unfold includes. apply bool_decide_eq_false. Qed.

Lemma toggle_present selectedFiles i :
  i ∈ selectedFiles →
  handleToggleFile selectedFiles i = filter (λ index, index ≠ i) selectedFiles.
Proof.
  intros Hin. unfold handleToggleFile.
  by rewrite (proj2 (includes_true _ _) Hin).
Qed.

Lemma toggle_absent selectedFiles i :
  i ∉ selectedFiles → handleToggleFile selectedFiles i = (selectedFiles ++ [i])%list.
Proof.
  intros Hin. unfold handleToggleFile.
  by rewrite (proj2 (includes_false _ _) Hin).
Qed.

Lemma selection_ok_reset fileList :
  selection_ok (length fileList) (reset (Some fileList)).
Proof.
  rewrite reset_seq. split.
  - apply NoDup_seq.
  - apply Forall_forall. intros i Hi. apply elem_of_seq in Hi. lia.
Qed.

Lemma selection_ok_toggle n selectedFiles i :
  selection_ok n selectedFiles → i < n →
  selection_ok n (handleToggleFile selectedFiles i).
Proof.
  intros [Hnd Hlt] Hi.
  destruct (decide (i ∈ selectedFiles)) as [Hin | Hout].
  - rewrite toggle_present by done. split.
    + by apply NoDup_filter.
    + apply Forall_forall. intros j Hj.
      apply list_elem_of_filter in Hj as [_ Hj].
      by eapply Forall_forall in Hlt.
  - rewrite toggle_absent by done. split.
    + apply NoDup_app. split_and!; [done | | apply NoDup_singleton].
      intros j Hj Hj'. apply list_elem_of_singleton in Hj'. by subst.
    + apply Forall_app. split; [done |]. by apply Forall_singleton.
Qed.

Lemma selection_ok_after_toggles fileList clicks :
  Forall (λ i, i < length fileList) clicks →
  selection_ok (length fileList) (after_toggles fileList clicks).
Proof.
  unfold after_toggles.
  induction clicks as [| i clicks IH] using rev_ind; intros Hc.
  - apply selection_ok_reset.
  - apply Forall_app in Hc as [Hc Hi].
    rewrite foldl_snoc. apply selection_ok_toggle; [by apply IH |].
    rewrite Forall_singleton in Hi. simpl in Hi. lia.
Qed.

(** The loop over [fileList] computes "every index is included". *)
Lemma allPresent_fold selectedFiles (l : list nat) (b : bool) :
  foldl (λ allPresent id, allPresent && includes selectedFiles id) b l
  = b && forallb (includes selectedFiles) l.
Proof.
  revert b. induction l as [| x l IH]; intros b; simpl.
  - by rewrite andb_true_r.
  - rewrite IH. by rewrite andb_assoc.
Qed.

Lemma allPresent_spec fileList selectedFiles :
  foldl (λ allPresent id, allPresent && includes selectedFiles id) true
    (imap (λ id _, id) fileList) = true
  ↔ ∀ id, id < length fileList → id ∈ selectedFiles.
Proof.
  rewrite allPresent_fold; simpl.
  rewrite (imap_seq_0 fileList (λ j, j)), list_fmap_id.
  rewrite forallb_forall. split.
  - intros H id Hid. apply includes_true, H.
    apply list_elem_of_In, elem_of_seq. lia.
  - intros H id Hid. apply includes_true, H.
    apply list_elem_of_In, elem_of_seq in Hid. lia.
Qed.

Lemma query_all_selected fileList selectedFiles :
  (∀ id, id < length fileList → id ∈ selectedFiles) →
  getSelectedFilesQueryParam fileList selectedFiles = EmptyString.
Proof.
  intros H. unfold getSelectedFilesQueryParam.
  by rewrite (proj2 (allPresent_spec _ _) H).
Qed.

Lemma query_some_missing fileList selectedFiles id :
  id < length fileList → id ∉ selectedFiles →
  getSelectedFilesQueryParam fileList selectedFiles
  = "&only_files=" +:+ join "," selectedFiles.
Proof.
  intros Hid Hout. unfold getSelectedFilesQueryParam.
  destruct (foldl _ true _) eqn:E; [| done].
  exfalso. apply Hout.
  exact (proj1 (allPresent_spec fileList selectedFiles) E id Hid).
Qed.

(** Removing indices keeps the ascending order of the reset list. *)
Lemma StronglySorted_seq j n : StronglySorted lt (seq j n).
Proof.
  revert j. induction n as [| n IH]; intros j; simpl; constructor.
  - apply IH.
  - apply Forall_forall. intros k Hk. apply elem_of_seq in Hk. lia.
Qed.

Lemma StronglySorted_filter_lt (P : nat → Prop) `{!∀ x, Decision (P x)} (l : list nat) :
  StronglySorted lt l → StronglySorted lt (filter P l).
Proof.
  induction 1 as [| x l Hs IH Hx]; [constructor |].
  rewrite filter_cons. destruct (decide (P x)); [| done].
  constructor; [done |].
  apply Forall_forall. intros y Hy.
  apply list_elem_of_filter in Hy as [_ Hy].
  by eapply Forall_forall in Hx.
Qed.

Lemma filter_keeps_all (P : nat → Prop) `{!∀ x, Decision (P x)} (l : list nat) :
  (∀ x, P x) → filter P l = l.
Proof.
  intros HP. induction l as [| x l IH]; [done |].
  rewrite filter_cons_True by apply HP. by rewrite IH.
Qed.

(** While each check box has been clicked at most once, every click
    was a removal and the list is the reset list without the clicked
    indices. *)
Lemma after_toggles_only_removals fileList clicks :
  NoDup clicks → Forall (λ i, i < length fileList) clicks →
  after_toggles fileList clicks
  = filter (λ index, index ∉ clicks) (seq 0 (length fileList)).
Proof.
  unfold after_toggles.
  induction clicks as [| i clicks IH] using rev_ind; intros Hnd Hc.
  - simpl. rewrite reset_seq.
    symmetry. apply filter_keeps_all. intros i. apply not_elem_of_nil.
  - apply NoDup_app in Hnd as (Hnd & Hfresh & _).
    apply Forall_app in Hc as [Hc Hi]. rewrite Forall_singleton in Hi.
    simpl in Hi. rewrite foldl_snoc, IH by done.
    assert (i ∉ clicks) as Hic.
    { intros Hin. apply (Hfresh i Hin). apply list_elem_of_singleton. done. }
    rewrite toggle_present.
    + rewrite list_filter_filter. apply list_filter_iff.
      intros k. rewrite elem_of_app, list_elem_of_singleton. tauto.
    + apply list_elem_of_filter. split; [done |]. apply elem_of_seq. lia.
Qed.

Lemma after_toggles_ascending fileList clicks :
  NoDup clicks → Forall (λ i, i < length fileList) clicks →
  StronglySorted lt (after_toggles fileList clicks).
Proof.
  intros Hnd Hc. rewrite after_toggles_only_removals by done.
  apply StronglySorted_filter_lt, StronglySorted_seq.
Qed.

End Selection.

(** C7, as stated, fails: the value of [only_files] follows the order of
    the selection list, not the ascending order.  With three files,
    unticking 0 and 1 and ticking 1 again leaves [2; 1], and the URL
    posted ends in [only_files=2,1]. *)
Lemma C7_only_files_not_ascending :
  let fileList := manifest 3 in
  let selectedFiles := after_toggles fileList [0; 1; 1] in
  selectedFiles = [2; 1]
  ∧ (0 ∉ selectedFiles)
  ∧ handleUpload_url fileList selectedFiles = "/torrents?overwrite=true&only_files=2,1"
  ∧ ascending_value selectedFiles = "1,2"
  ∧ handleUpload_url fileList selectedFiles
    ≠ "/torrents?overwrite=true&only_files=" +:+ ascending_value selectedFiles.
Proof.
  vm_compute. split_and!; try reflexivity.
  - intros H. apply list_elem_of_In in H. simpl in H. intuition discriminate.
  - discriminate.
Qed.

(** C7, amended: with every index of the manifest selected the URL has
    no [only_files] parameter; with some index missing it ends in
    [&only_files=] followed by the indices, in decimal, comma-joined in
    the order of the selection list; with an empty selection OK is
    disabled and nothing is posted.  The list is in ascending order as
    long as every check box was clicked at most once since the reset. *)
Theorem C7_upload_query (fileList : list TorrentFile) (selectedFiles : list nat) :
  ((∀ id, id < length fileList → id ∈ selectedFiles) →
     handleUpload_url fileList selectedFiles = "/torrents?overwrite=true")
  ∧ (∀ id, id < length fileList → id ∉ selectedFiles →
       handleUpload_url fileList selectedFiles
       = "/torrents?overwrite=true&only_files="
           +:+ String.concat "," (pretty <$> selectedFiles))
  ∧ (selectedFiles = [] →
       ∀ fileListLoading uploading,
         OK_disabled fileListLoading uploading selectedFiles = true
         ∧ click_OK fileListLoading uploading fileList selectedFiles = None)
  ∧ (∀ clicks, NoDup clicks → Forall (λ i, i < length fileList) clicks →
       selectedFiles = after_toggles fileList clicks →
       StronglySorted lt selectedFiles).
Proof.
  split_and!.
  - intros H. unfold handleUpload_url. by rewrite query_all_selected.
  - intros id Hid Hout. unfold handleUpload_url.
    by rewrite (query_some_missing _ _ id).
  - intros -> l u. unfold click_OK, OK_disabled. simpl.
    by rewrite !orb_true_r.
  - intros clicks Hnd Hc ->. by apply after_toggles_ascending.
Qed.

(** The examples of the specification: five files, all selected, and
    files 0, 2 and 4 selected. *)
Lemma C7_upload_query_witness :
  handleUpload_url (manifest 5) [0; 1; 2; 3; 4] = "/torrents?overwrite=true"
  ∧ handleUpload_url (manifest 5) [0; 2; 4] = "/torrents?overwrite=true&only_files=0,2,4"
  ∧ click_OK false false (manifest 5) [] = None
  ∧ StronglySorted lt (after_toggles (manifest 5) [3; 1]).
Proof.
  split_and!.
  - apply (C7_upload_query (manifest 5) [0; 1; 2; 3; 4]).
    intros id Hid. apply list_elem_of_In. simpl in *. lia.
  - apply (proj1 (proj2 (C7_upload_query (manifest 5) [0; 2; 4])) 1).
    + simpl. lia.
    + intros H. apply list_elem_of_In in H. simpl in H. lia.
  - apply (proj1 (proj2 (proj2 (C7_upload_query (manifest 5) []))) eq_refl false false).
  - apply (proj2 (proj2 (proj2 (C7_upload_query (manifest 5) _))) [3; 1]).
    + apply NoDup_ListNoDup. repeat constructor; simpl; lia.
    + repeat constructor; simpl; lia.
    + reflexivity.
Defined.

(** C10: the reset list is [0; ...; n-1]; it has no index twice and only
    indices below [n]; a click on the check box of a file of the
    manifest removes its index when present and appends it when absent,
    and in both cases the list still has no index twice and only indices
    below [n].  So does the list after any series of such clicks. *)
Theorem C10_selection_invariant (fileList : list TorrentFile) :
  reset (Some fileList) = seq 0 (length fileList)
  ∧ selection_ok (length fileList) (reset (Some fileList))
  ∧ (∀ selectedFiles i,
       selection_ok (length fileList) selectedFiles → i < length fileList →
       selection_ok (length fileList) (handleToggleFile selectedFiles i)
       ∧ (i ∈ selectedFiles →
            handleToggleFile selectedFiles i = filter (λ index, index ≠ i) selectedFiles
            ∧ i ∉ handleToggleFile selectedFiles i)
       ∧ (i ∉ selectedFiles →
            handleToggleFile selectedFiles i = (selectedFiles ++ [i])%list))
  ∧ (∀ clicks, Forall (λ i, i < length fileList) clicks →
       selection_ok (length fileList) (after_toggles fileList clicks)).
Proof.
  split_and!.
  - apply reset_seq.
  - apply selection_ok_reset.
  - intros selectedFiles i Hok Hi. split_and!.
    + by apply selection_ok_toggle.
    + intros Hin. rewrite toggle_present by done. split; [done |].
      rewrite list_elem_of_filter. tauto.
    + apply toggle_absent.
  - apply selection_ok_after_toggles.
Qed.

Lemma C10_selection_invariant_witness :
  selection_ok 3 (handleToggleFile [0; 2] 1)
  ∧ selection_ok 3 (handleToggleFile [0; 2] 2)
  ∧ selection_ok 3 (after_toggles (manifest 3) [0; 1; 1]).
Proof.
  assert (selection_ok 3 [0; 2]) as Hok.
  { split; [apply NoDup_ListNoDup |]; repeat constructor; simpl; lia. }
  destruct (C10_selection_invariant (manifest 3)) as (_ & _ & Htoggle & Hclicks).
  split_and!.
  - apply (Htoggle [0; 2] 1 Hok). simpl. lia.
  - apply (Htoggle [0; 2] 2 Hok). simpl. lia.
  - apply (Hclicks [0; 1; 1]). repeat constructor; simpl; lia.
Defined.

(** ** The request pipeline *)

Section Requests.

Variable apiUrl : string.
Variable fetch : string → RequestInit → option Response.
Variable stringify : JS.Json → string.

Implicit Types (data : option UploadPayload).
Implicit Types (showError : bool) (st : RootState) (response : Response).

Lemma makeRequest_network_error (method_ path_ : string) data showError st :
  fetch (apiUrl +:+ path_) (options_of method_ data) = None →
  (makeRequest apiUrl fetch stringify method_ path_ data showError st).1
  = JS.Rejected (ErrorRecord
      {| error_id := None; method := Some method_; path := Some path_;
         status := None; statusText := None;
         text := JS.String "network error" |}).
Proof.
  intros H. unfold makeRequest. by rewrite H.
Qed.

(** A response with a status outside 200..299 whose body is read is
    rejected with a record that names the request and the status. *)
Lemma makeRequest_http_error (method_ path_ : string) data showError st response :
  fetch (apiUrl +:+ path_) (options_of method_ data) = Some response →
  ok response = false →
  response_body_fails response = false →
  ∃ e, (makeRequest apiUrl fetch stringify method_ path_ data showError st).1
       = JS.Rejected (ErrorRecord e)
     ∧ error_id e = None ∧ method e = Some method_ ∧ path e = Some path_
     ∧ status e = Some (response_status response)
     ∧ statusText e = Some (response_statusText response)
     ∧ text e =
         match JSON.parse (response_body response) with
         | Some json =>
             match JS.get json "human_readable" with
             | Some (JS.Val human_readable) => human_readable
             | Some JS.Undefined => JS.String (stringify json)
             | None => JS.String (response_body response)
             end
         | None => JS.String (response_body response)
         end.
Proof.
  intros H Hok Hread. unfold makeRequest.
  rewrite H, Hok. simpl. unfold response_text. rewrite Hread.
  destruct (JSON.parse (response_body response)) as [json |]; simpl.
  - destruct (JS.get json "human_readable") as [[| v] |]; simpl;
      eexists; split_and!; reflexivity.
  - eexists; split_and!; reflexivity.
Qed.

Lemma get_field json v :
  field "human_readable" json = Some v →
  JS.get json "human_readable" = Some (JS.Val v).
Proof. destruct json; simpl; try discriminate. by intros ->. Qed.

Lemma get_no_field json :
  json ≠ JS.Null → field "human_readable" json = None →
  JS.get json "human_readable" = Some JS.Undefined.
Proof. destruct json; simpl; try done. by intros _ ->. Qed.

(** A body that is the JSON text [null] parses, but reading a member
    of [null] throws inside the same [try]: the raw body is used. *)
Lemma makeRequest_null_body (method_ path_ : string) data showError st response e :
  fetch (apiUrl +:+ path_) (options_of method_ data) = Some response →
  ok response = false →
  response_body_fails response = false →
  JSON.parse (response_body response) = Some JS.Null →
  error_record (makeRequest apiUrl fetch stringify method_ path_ data showError st).1
  = Some e →
  text e = JS.String (response_body response).
Proof.
  intros H Hok Hread Hparse He.
  destruct (makeRequest_http_error method_ path_ data showError st response H Hok Hread)
    as (e' & Hr & _ & _ & _ & _ & _ & Ht).
  rewrite Hr in He. simpl in He. injection He as <-.
  by rewrite Ht, Hparse.
Qed.

(** A response with a status in 200..299 whose body is not JSON: the
    exception of [response.json()] leaves [makeRequest] as it is. *)
Lemma makeRequest_success_status_bad_json (method_ path_ : string) data showError st response :
  fetch (apiUrl +:+ path_) (options_of method_ data) = Some response →
  ok response = true →
  response_body_fails response = false →
  JSON.parse (response_body response) = None →
  makeRequest apiUrl fetch stringify method_ path_ data showError st
  = (JS.Rejected (Raw SyntaxError), st).
Proof.
  intros H Hok Hread Hparse. unfold makeRequest.
  rewrite H, Hok. simpl. unfold response_json, response_text.
  by rewrite Hread, Hparse.
Qed.

(** A response whose body cannot be read, whatever its status: the
    exception of [response.text()] or [response.json()] leaves
    [makeRequest] as it is; no record is built and nothing is
    published. *)
Lemma makeRequest_body_read_fails (method_ path_ : string) data showError st response :
  fetch (apiUrl +:+ path_) (options_of method_ data) = Some response →
  response_body_fails response = true →
  makeRequest apiUrl fetch stringify method_ path_ data showError st
  = (JS.Rejected (Raw TypeError), st).
Proof.
  intros H Hread. unfold makeRequest, response_json, response_text.
  rewrite H, Hread. by destruct (ok response).
Qed.

(** C6, amended: when [fetch] throws, the request is rejected with a
    record whose [text] is "network error" and which has no [status];
    when a response with a non-success status arrives and its body is
    read, the request is rejected with a record that
    holds its [status] and [statusText], and [text] is the body's
    [human_readable] member when the body parses as a JSON object that
    has one, the pretty-printed JSON when the body parses as a JSON
    value other than [null] without that member, and the raw body text
    when the body does not parse.  Nothing is promised about the text
    being non-empty. *)
Theorem C6_error_text (method_ path_ : string) data showError st :
  let outcome := (makeRequest apiUrl fetch stringify method_ path_ data showError st).1 in
  (fetch (apiUrl +:+ path_) (options_of method_ data) = None →
     ∃ e, outcome = JS.Rejected (ErrorRecord e)
        ∧ method e = Some method_ ∧ path e = Some path_
        ∧ text e = JS.String "network error"
        ∧ status e = None ∧ statusText e = None)
  ∧ (∀ response,
       fetch (apiUrl +:+ path_) (options_of method_ data) = Some response →
       ok response = false →
       response_body_fails response = false →
       ∃ e, outcome = JS.Rejected (ErrorRecord e)
          ∧ method e = Some method_ ∧ path e = Some path_
          ∧ status e = Some (response_status response)
          ∧ statusText e = Some (response_statusText response)
          ∧ (∀ json v, JSON.parse (response_body response) = Some json →
               field "human_readable" json = Some v → text e = v)
          ∧ (∀ json, JSON.parse (response_body response) = Some json →
               json ≠ JS.Null → field "human_readable" json = None →
               text e = JS.String (stringify json))
          ∧ (JSON.parse (response_body response) = None →
               text e = JS.String (response_body response))).
Proof.
  intros outcome. split.
  - intros H. eexists. split; [by apply makeRequest_network_error |].
    by split_and!.
  - intros response H Hok Hread.
    destruct (makeRequest_http_error method_ path_ data showError st response H Hok Hread)
      as (e & Hr & _ & Hm & Hp & Hs & Hst & Ht).
    exists e. split_and!; try done.
    + intros json v Hparse Hf. by rewrite Ht, Hparse, (get_field json v).
    + intros json Hparse Hnull Hf. by rewrite Ht, Hparse, get_no_field.
    + intros Hparse. by rewrite Ht, Hparse.
Qed.

End Requests.

(** C6, as stated, fails in its last part: a non-success response with
    an empty body is rejected with the empty [text] the record started
    with. *)
Lemma C6_empty_body_empty_text :
  let response := internal_server_error EmptyString in
  ok response = false
  ∧ JSON.parse (response_body response) = None
  ∧ (makeRequest EmptyString (answering (Some response)) stringify_unused
       "GET" "/torrents" None false Root_initial).1
    = JS.Rejected (ErrorRecord
        {| error_id := None; method := Some "GET"; path := Some "/torrents";
           status := Some 500%Z; statusText := Some "Internal Server Error";
           text := JS.String EmptyString |}).
Proof. vm_compute. by split_and!. Qed.

(** The examples of the specification: a 500 response whose body is the
    object with [human_readable] set to "disk full", a 500 response with
    the body "oops", and a network failure. *)
Lemma C6_error_text_witness :
  let disk_full := "{" +:+ quoted "human_readable" +:+ ":" +:+ quoted "disk full" +:+ "}" in
  let text_of (answer : option Response) :=
    text <$> error_record
      (makeRequest EmptyString (answering answer) stringify_unused
         "GET" "/torrents" None false Root_initial).1 in
  text_of (Some (internal_server_error disk_full)) = Some (JS.String "disk full")
  ∧ text_of (Some (internal_server_error "oops")) = Some (JS.String "oops")
  ∧ text_of None = Some (JS.String "network error").
Proof.
  pose proof (C6_error_text EmptyString) as C6. simpl in C6.
  split_and!.
  - destruct (C6 (answering (Some (internal_server_error
        ("{" +:+ quoted "human_readable" +:+ ":" +:+ quoted "disk full" +:+ "}"))))
        stringify_unused "GET" "/torrents" None false Root_initial) as [_ H].
    destruct (H _ eq_refl eq_refl eq_refl) as (e & -> & _ & _ & _ & _ & Hfield & _).
    simpl. f_equal.
    apply (Hfield (JS.Object [("human_readable", JS.String "disk full")]));
      vm_compute; reflexivity.
  - destruct (C6 (answering (Some (internal_server_error "oops")))
        stringify_unused "GET" "/torrents" None false Root_initial) as [_ H].
    destruct (H _ eq_refl eq_refl eq_refl) as (e & -> & _ & _ & _ & _ & _ & _ & Hraw).
    simpl. f_equal. apply Hraw. vm_compute. reflexivity.
  - destruct (C6 (answering None)
        stringify_unused "GET" "/torrents" None false Root_initial) as [H _].
    destruct (H eq_refl) as (e & -> & _ & _ & Ht & _).
    simpl. by f_equal.
Defined.

(** C8 fails on the code: a response with status 200 whose body is not
    JSON is rejected with the [SyntaxError] of [response.json()], not
    with an [ErrorType] record, and nothing reaches [setCloseableError]
    even with [showError] set. *)
Theorem C8_success_status_bad_json_raw_exception :
  let response := status_ok "oops" in
  ok response = true
  ∧ makeRequest EmptyString (answering (Some response)) stringify_unused
      "GET" "/torrents" None true Root_initial
    = (JS.Rejected (Raw SyntaxError), Root_initial)
  ∧ error_record
      (makeRequest EmptyString (answering (Some response)) stringify_unused
         "GET" "/torrents" None true Root_initial).1 = None.
Proof. vm_compute. by split_and!. Qed.

(** ** The registry tick and the stats tick *)

(** C5: after a tick whose request succeeded the list is the fetched
    one, the registry error is cleared and the next delay is 500 ms;
    after a tick whose request failed the registry error is the
    rejection, the list is the one stored before and the next delay is
    5000 ms.  The loading flag is down again in both cases. *)
Theorem C5_registry_tick (st : RootState) :
  (∀ fetched,
     Root_tick (JS.Fulfilled fetched) st
     = ({| closeableError := closeableError st; otherError := None;
           torrents := Some (list_torrents fetched); torrentsLoading := false |},
        JS.num 500))
  ∧ (∀ e,
       Root_tick (JS.Rejected e) st
       = ({| closeableError := closeableError st; otherError := Some e;
             torrents := torrents st; torrentsLoading := false |},
          JS.num 5000)).
Proof. split; intros; reflexivity. Qed.

(** C4: after a successful stats fetch the stored snapshot is the
    fetched one and the next delay is 5000 ms when [have_bytes] equals
    [total_bytes], 500 ms otherwise; after a failed fetch the stored
    snapshot is unchanged and the next delay is 10000 ms. *)
Theorem C4_stats_interval (stats previous : TorrentStats) (e : Reason) :
  (have_bytes (snapshot stats) = total_bytes (snapshot stats) →
     update (JS.Fulfilled stats) previous = (stats, JS.num 5000))
  ∧ (have_bytes (snapshot stats) ≠ total_bytes (snapshot stats) →
       update (JS.Fulfilled stats) previous = (stats, JS.num 500))
  ∧ update (JS.Rejected e) previous = (previous, JS.num 10000).
Proof.
  unfold update, torrentIsDone. split_and!.
  - intros H. by rewrite bool_decide_eq_true_2.
  - intros H. by rewrite bool_decide_eq_false_2.
  - reflexivity.
Qed.

Lemma C4_stats_interval_witness :
  update (JS.Fulfilled (sample_stats 4096 4096)) defaultStats
  = (sample_stats 4096 4096, JS.num 5000)
  ∧ update (JS.Fulfilled (sample_stats 1024 4096)) defaultStats
    = (sample_stats 1024 4096, JS.num 500)
  ∧ update (JS.Rejected (Raw TypeError)) (sample_stats 4096 4096)
    = (sample_stats 4096 4096, JS.num 10000).
Proof.
  split_and!.
  - apply (C4_stats_interval (sample_stats 4096 4096) defaultStats (Raw TypeError)).
    reflexivity.
  - apply (C4_stats_interval (sample_stats 1024 4096) defaultStats (Raw TypeError)).
    simpl. lia.
  - apply (C4_stats_interval (sample_stats 4096 4096) (sample_stats 4096 4096)
             (Raw TypeError)).
Defined.

(** ** [customSetInterval] *)

Section Adaptive.

Import CustomSetInterval.

Implicit Types (s : state) (ev : Event) (evs : list Event).

Lemma customSetInterval_armed interval : armed (customSetInterval interval).
Proof.
  split; [done |]. exists 1. split; [done |]. simpl. apply insert_empty.
Qed.

Lemma step_situation s ev s' :
  stopped s ∨ armed s ∨ running s →
  step s ev = Some s' →
  stopped s' ∨ armed s' ∨ running s'.
Proof.
  destruct s as [[p n] tid cur fl c]. unfold stopped, armed, running, step.
  simpl. intros Hs Hstep. destruct ev as [id | r |].
  - unfold Timers.fire in Hstep. simpl in Hstep.
    destruct (p !! id) as [d |] eqn:E; [| discriminate].
    injection Hstep as <-. simpl.
    destruct Hs as [[_ ->] | [[-> (id' & _ & ->)] | [_ ->]]].
    + by rewrite lookup_empty in E.
    + apply lookup_singleton_Some in E as [-> _].
      right; right. split; [done |]. apply delete_singleton_eq.
    + by rewrite lookup_empty in E.
  - destruct fl as [| fl]; [discriminate |].
    injection Hstep as <-.
    destruct Hs as [[Hf _] | [[Hf _] | [Hf ->]]]; try discriminate.
    injection Hf as ->. unfold executeCallback_resume. simpl.
    destruct r as [v | e]; simpl; [| by left].
    destruct (JS.is_null v || JS.is_undefined v); simpl; [by left |].
    right; left. split; [done |]. exists n. split; [done |]. apply insert_empty.
  - injection Hstep as <-. simpl.
    destruct Hs as [[-> ->] | [[-> (id' & -> & ->)] | [-> ->]]]; simpl.
    + left. split; [done |]. destruct tid; simpl; [apply delete_empty | done].
    + left. split; [done |]. apply delete_singleton_eq.
    + right; right. split; [done |].
      destruct tid; simpl; [apply delete_empty | done].
Qed.

Lemma run_situation evs s s' :
  stopped s ∨ armed s ∨ running s →
  run s evs = Some s' →
  stopped s' ∨ armed s' ∨ running s'.
Proof.
  revert s. induction evs as [| ev evs IH]; intros s Hs Hrun; simpl in Hrun.
  - by injection Hrun as <-.
  - destruct (step s ev) as [s1 |] eqn:E; [| discriminate].
    eapply IH; [| done]. by eapply step_situation.
Qed.

Lemma fire_needs_timer s id :
  Timers.pending (host s) = ∅ → step s (Fire id) = None.
Proof.
  intros H. unfold step, Timers.fire. by rewrite H, lookup_empty.
Qed.

Lemma fire_running s id s' :
  stopped s ∨ armed s ∨ running s → step s (Fire id) = Some s' → running s'.
Proof.
  intros Hs Hstep.
  assert (in_flight s' = S (in_flight s)) as Hf.
  { unfold step in Hstep. destruct (Timers.fire id (host s)); [| discriminate].
    by injection Hstep as <-. }
  destruct (step_situation s (Fire id) s' Hs Hstep) as [[Hf' _] | [[Hf' _] | H]];
    [lia | lia | done].
Qed.

Lemma run_app s evs1 evs2 s' :
  run s (evs1 ++ evs2) = Some s' →
  ∃ s1, run s evs1 = Some s1 ∧ run s1 evs2 = Some s'.
Proof.
  revert s. induction evs1 as [| ev evs1 IH]; intros s Hrun; simpl in *.
  - by exists s.
  - destruct (step s ev) as [s1 |]; [by apply IH | discriminate].
Qed.

(** From a running state a timer can fire only after the call in flight
    has settled. *)
Lemma running_until_settle s evs id evs' s' :
  running s → run s (evs ++ Fire id :: evs') = Some s' →
  ∃ r, Settle r ∈ evs.
Proof.
  revert s. induction evs as [| ev evs IH]; intros s Hs Hrun; cbn [run app] in Hrun.
  - destruct Hs as [_ Hp]. by rewrite (fire_needs_timer s id Hp) in Hrun.
  - destruct ev as [id' | r |].
    + destruct Hs as [_ Hp]. by rewrite (fire_needs_timer s id' Hp) in Hrun.
    + exists r. apply list_elem_of_here.
    + destruct (step s Clear) as [s1 |] eqn:E; [| discriminate].
      assert (running s1) as Hs1.
      { destruct (step_situation s Clear s1 (or_intror (or_intror Hs)) E)
          as [[Hf _] | [[Hf _] | H]]; [| | done];
          injection E as <-; simpl in Hf; destruct Hs as [Hf' _]; lia. }
      destruct (IH s1 Hs1 Hrun) as [r Hr]. exists r. by apply list_elem_of_further.
Qed.

(** C1: in every state a scheduler can reach, whatever the events and
    the values the unit of work resolves to, at most one call is in
    flight; while one is, no timer is pending, so no further call can
    start; a timer fires only when no call is in flight; and between the
    starts of two calls the promise of the first has settled. *)
Theorem C1_at_most_one_in_flight (interval : Z) evs s :
  run (customSetInterval interval) evs = Some s →
  in_flight s ≤ 1
  ∧ (in_flight s = 1 →
       Timers.pending (host s) = ∅ ∧ ∀ id, step s (Fire id) = None)
  ∧ (∀ id s', step s (Fire id) = Some s' → in_flight s = 0 ∧ in_flight s' = 1)
  ∧ (∀ before id1 between id2 after,
       evs = before ++ Fire id1 :: between ++ Fire id2 :: after →
       ∃ r, Settle r ∈ between).
Proof.
  intros Hrun.
  assert (stopped (customSetInterval interval) ∨ armed (customSetInterval interval)
          ∨ running (customSetInterval interval)) as H0.
  { right; left. apply customSetInterval_armed. }
  pose proof (run_situation evs _ s H0 Hrun) as Hs.
  split_and!.
  - destruct Hs as [[-> _] | [[-> _] | [-> _]]]; lia.
  - intros Hf.
    destruct Hs as [[Hf' _] | [[Hf' _] | [_ Hp]]]; try (rewrite Hf in Hf'; discriminate).
    split; [done |]. intros id. by apply fire_needs_timer.
  - intros id s' Hstep.
    destruct Hs as [[_ Hp] | [[Hf _] | [_ Hp]]];
      try (rewrite (fire_needs_timer s id Hp) in Hstep; discriminate).
    split; [done |].
    unfold step in Hstep. destruct (Timers.fire id (host s)); [| discriminate].
    injection Hstep as <-. simpl. by rewrite Hf.
  - intros before id1 between id2 after ->.
    apply run_app in Hrun as (s1 & Hrun1 & Hrun2).
    pose proof (run_situation before _ s1 H0 Hrun1) as Hs1.
    cbn [run] in Hrun2.
    destruct (step s1 (Fire id1)) as [s2 |] eqn:E; [| discriminate].
    apply (running_until_settle s2 between id2 after s); [| done].
    by apply (fire_running s1 id1).
Qed.

(** A slow first call of the stats poller: its timer fires, the call
    resolves to 500, the second timer fires. *)
Lemma C1_at_most_one_in_flight_witness :
  ∃ s, run (customSetInterval 0)
         [Fire 1; Settle (JS.Fulfilled (JS.num 500)); Fire 2] = Some s
     ∧ in_flight s ≤ 1
     ∧ ∃ r, Settle r ∈ [Settle (JS.Fulfilled (JS.num 500))].
Proof.
  destruct (run (customSetInterval 0)
              [Fire 1; Settle (JS.Fulfilled (JS.num 500)); Fire 2])
    as [s |] eqn:E.
  - exists s. split; [reflexivity |].
    destruct (C1_at_most_one_in_flight 0 _ s E) as (Hle & _ & _ & Htrace).
    split; [exact Hle |].
    apply (Htrace [] 1 [Settle (JS.Fulfilled (JS.num 500))] 2 []). reflexivity.
  - vm_compute in E. discriminate E.
Defined.

(** The handle stops a scheduler for good when no call is in flight. *)
Lemma stopped_stays s evs s' :
  stopped s → run s evs = Some s' → stopped s' ∧ calls s' = calls s.
Proof.
  revert s. induction evs as [| ev evs IH]; intros s Hs Hrun; simpl in Hrun.
  - by injection Hrun as <-.
  - destruct (step s ev) as [s1 |] eqn:E; [| discriminate].
    destruct Hs as [Hf Hp]. destruct ev as [id | r |].
    + by rewrite (fire_needs_timer s id Hp) in E.
    + unfold step in E. by rewrite Hf in E.
    + injection E as <-.
      destruct (IH (clearCustomInterval s)) as [Hs' Hc]; [| done | done].
      split; [done |]. simpl.
      destruct (timeoutId s); simpl; rewrite Hp; [apply delete_empty | done].
Qed.

Lemma clear_when_idle_stops (interval : Z) evs s evs' s' :
  run (customSetInterval interval) evs = Some s →
  in_flight s = 0 →
  run (clearCustomInterval s) evs' = Some s' →
  calls s' = calls s.
Proof.
  intros Hrun Hf Hrun'.
  pose proof (run_situation evs _ s (or_intror (or_introl (customSetInterval_armed interval))) Hrun)
    as Hs.
  assert (stopped (clearCustomInterval s)) as Hstop.
  { split; [done |]. simpl.
    destruct Hs as [[_ Hp] | [[_ (id & Hid & Hp)] | [Hf' _]]].
    - destruct (timeoutId s); simpl; rewrite Hp; [apply delete_empty | done].
    - rewrite Hid. simpl. rewrite Hp. apply delete_singleton_eq.
    - rewrite Hf in Hf'. discriminate. }
  by destruct (stopped_stays _ evs' s' Hstop Hrun') as [_ ->].
Qed.

(** C3 fails on the code: the handle of the stats poller is run while
    its first call is in flight; when that call resolves to 500 a new
    timer is set, it fires, and a second call starts. *)
Theorem C3_clear_while_in_flight_polls_again :
  ∃ s1 s2,
    run Torrent_effect [Fire 1] = Some s1
    ∧ in_flight s1 = 1 ∧ calls s1 = 1
    ∧ run (clearCustomInterval s1) [Settle (JS.Fulfilled (JS.num 500)); Fire 2] = Some s2
    ∧ in_flight s2 = 1 ∧ calls s2 = 2.
Proof.
  eexists _, _. split_and!.
  - vm_compute. reflexivity.
  - reflexivity.
  - reflexivity.
  - vm_compute. reflexivity.
  - reflexivity.
  - reflexivity.
Qed.

(** C9, as stated, fails: the first timer of the registry poller is
    set with the delay 500, not 0. *)
Lemma C9_registry_first_delay_500 :
  scheduled_delay Root_effect = Some (JS.num 500)
  ∧ scheduled_delay Root_effect ≠ Some (JS.num 0).
Proof. vm_compute. split; [reflexivity | discriminate]. Qed.

(** C9, amended: the first call is scheduled with the delay passed as
    [interval]; that is 0 for the stats poller of a task and 500 for
    the registry poller.  Nothing is called before that timer
    fires. *)
Theorem C9_first_delay_is_interval (interval : Z) :
  let s := customSetInterval interval in
  scheduled_delay s = Some (JS.num interval)
  ∧ Timers.pending (host s) = {[ 1 := JS.num interval ]}
  ∧ in_flight s = 0 ∧ calls s = 0
  ∧ scheduled_delay Torrent_effect = Some (JS.num 0)
  ∧ scheduled_delay Root_effect = Some (JS.num 500).
Proof.
  simpl. split_and!; reflexivity.
Qed.

End Adaptive.

(** ** [loopUntilSuccess] *)

Section Retry.

Import LoopUntilSuccess.

Implicit Types (s : state) (ev : Event) (evs : list Event).
Implicit Types (r : JS.Settled JS.Value JS.Value).

(** Both handlers are block-bodied arrows without [return]: [retry] is
    [undefined] whatever the operation did, and it is falsy. *)
Lemma retry_is_undefined :
  JS.call onFulfilled = JS.Undefined ∧ JS.call onRejected = JS.Undefined
  ∧ JS.truthy JS.Undefined = false.
Proof. by split_and!. Qed.

Lemma resume_sets_no_timer r s :
  host (executeCallback_resume r s) = host s
  ∧ calls (executeCallback_resume r s) = calls s.
Proof. destruct r; by split. Qed.

Lemma loopUntilSuccess_waiting (interval : Z) : waiting (loopUntilSuccess interval).
Proof.
  split_and!; [done | done |]. exists 1, (JS.num 0). split; [done |].
  simpl. apply insert_empty.
Qed.

Lemma fire_needs_timer_loop s id :
  Timers.pending (host s) = ∅ → step s (Fire id) = None.
Proof.
  intros H. unfold step, Timers.fire. by rewrite H, lookup_empty.
Qed.

Lemma step_spent s ev s' :
  spent s → step s ev = Some s' → spent s' ∧ calls s' = calls s.
Proof.
  intros [Hc Hp] Hstep. destruct ev as [id | r |].
  - by rewrite (fire_needs_timer_loop s id Hp) in Hstep.
  - unfold step in Hstep. destruct (in_flight s); [discriminate |].
    injection Hstep as <-.
    destruct (resume_sets_no_timer r s) as [Hh Hcalls].
    unfold spent. by rewrite Hh, Hcalls.
  - injection Hstep as <-. unfold spent. simpl. split; [| done].
    split; [done |].
    destruct (timeoutId s); simpl; rewrite Hp; [apply delete_empty | done].
Qed.

Lemma step_waiting s ev s' :
  waiting s → step s ev = Some s' → spent s'.
Proof.
  destruct s as [[p n] tid i fl c]. unfold waiting, spent, step. simpl.
  intros (-> & -> & id' & delay & -> & ->) Hstep.
  destruct ev as [id | r |].
  - unfold Timers.fire in Hstep. simpl in Hstep.
    destruct (({[id' := delay]} : gmap nat JS.Value) !! id) as [d |] eqn:E;
      [| discriminate].
    apply lookup_singleton_Some in E as [-> _].
    injection Hstep as <-. simpl. split; [lia |]. apply delete_singleton_eq.
  - discriminate.
  - injection Hstep as <-. simpl. split; [lia |]. apply delete_singleton_eq.
Qed.

Lemma run_spent evs s s' :
  spent s → run s evs = Some s' → spent s' ∧ calls s' = calls s.
Proof.
  revert s. induction evs as [| ev evs IH]; intros s Hs Hrun; simpl in Hrun.
  - by injection Hrun as <-.
  - destruct (step s ev) as [s1 |] eqn:E; [| discriminate].
    destruct (step_spent s ev s1 Hs E) as [Hs1 Hc1].
    destruct (IH s1 Hs1 Hrun) as [Hs' Hc']. split; [done | congruence].
Qed.

Lemma run_waiting_or_spent (interval : Z) evs s :
  run (loopUntilSuccess interval) evs = Some s → waiting s ∨ spent s.
Proof.
  pose proof (loopUntilSuccess_waiting interval) as H.
  revert H. generalize (loopUntilSuccess interval) as s0.
  induction evs as [| ev evs IH]; intros s0 H0 Hrun; simpl in Hrun.
  - injection Hrun as <-. by left.
  - destruct (step s0 ev) as [s1 |] eqn:E; [| discriminate].
    right. by apply (run_spent evs s1 s (step_waiting s0 ev s1 H0 E)).
Qed.

(** Whatever the operation does and whatever the host does, the
    operation is called at most once. *)
Lemma loopUntilSuccess_calls_at_most_once (interval : Z) evs s :
  run (loopUntilSuccess interval) evs = Some s → calls s ≤ 1.
Proof.
  intros Hrun. destruct (run_waiting_or_spent interval evs s Hrun) as [H | H].
  - destruct H as (_ & -> & _). lia.
  - by destruct H.
Qed.

(** After the handle ran, no call starts, in flight or not. *)
Lemma loopUntilSuccess_clear_stops (interval : Z) evs s evs' s' :
  run (loopUntilSuccess interval) evs = Some s →
  run (clearCustomInterval s) evs' = Some s' →
  calls s' = calls s.
Proof.
  intros Hrun Hrun'.
  assert (spent (clearCustomInterval s)) as Hspent.
  { destruct (run_waiting_or_spent interval evs s Hrun) as [Hw | [Hc Hp]].
    - destruct Hw as (_ & Hc & id & delay & Hid & Hp).
      split; simpl; [lia |]. rewrite Hid. simpl. rewrite Hp.
      apply delete_singleton_eq.
    - split; [done |]. simpl.
      destruct (timeoutId s); simpl; rewrite Hp; [apply delete_empty | done]. }
  by destruct (run_spent evs' _ s' Hspent Hrun') as [_ ->].
Qed.

(** C2 fails on the code: for an operation that fails twice and then
    succeeds, the timer set at construction fires, the first call
    fails, and nothing is scheduled again: the operation has been
    called once, not three times, and no event can start a call. *)
Theorem C2_failed_call_is_not_retried :
  let failed := JS.Rejected JS.Undefined in
  let succeeded := JS.Fulfilled JS.Undefined in
  let s := play [failed; failed; succeeded] (loopUntilSuccess 1000) in
  calls s = 1 ∧ in_flight s = 0
  ∧ Timers.pending (host s) = ∅
  ∧ run (loopUntilSuccess 1000) [Fire 1; Settle failed] = Some s
  ∧ step s (Fire 1) = None ∧ step s (Fire 2) = None
  ∧ step s (Settle failed) = None.
Proof. vm_compute. by split_and!. Qed.

End Retry.

(** ** [getLargestFileName] *)

Section LargestFile.

Implicit Types (f g : TorrentFile) (l : list TorrentFile).

(** The fold keeps the last file among those of maximal length. *)
Lemma reduce_last_largest first rest :
  ∃ before after,
    first :: rest = before ++ foldl keep_larger first rest :: after
    ∧ Forall (λ g, (file_length g ≤ file_length (foldl keep_larger first rest))%Z) before
    ∧ Forall (λ g, (file_length g < file_length (foldl keep_larger first rest))%Z) after.
Proof.
  induction rest as [| x rest IH] using rev_ind.
  - exists [], []. simpl. by split_and!.
  - destruct IH as (before & after & Heq & Hb & Ha).
    rewrite foldl_snoc. set (w := foldl keep_larger first rest) in *.
    destruct (decide (file_length w > file_length x)%Z) as [Hcmp | Hcmp].
    + replace (keep_larger w x) with w
        by (unfold keep_larger; by rewrite bool_decide_eq_true_2).
      exists before, (after ++ [x]). split_and!; [| done |].
      * rewrite app_comm_cons, Heq. by rewrite <- app_assoc.
      * apply Forall_app. split; [done |]. apply Forall_singleton. lia.
    + replace (keep_larger w x) with x
        by (unfold keep_larger; by rewrite bool_decide_eq_false_2).
      exists (before ++ w :: after), []. split_and!; [| | done].
      * by rewrite app_comm_cons, Heq.
      * apply Forall_app. split.
        -- eapply Forall_impl; [exact Hb |]. simpl. intros g Hg. lia.
        -- constructor; [lia |].
           eapply Forall_impl; [exact Ha |]. simpl. intros g Hg. lia.
Qed.

End LargestFile.

(** X1: [getLargestFileName] answers "Loading..." for a torrent without
    files; otherwise it answers the name of a file of the list that is
    at least as long as every file before it and strictly longer than
    every file after it: the last of the largest files. *)
Theorem X1_getLargestFileName_last_largest (torrentDetails : TorrentDetails) :
  (files torrentDetails = [] → getLargestFileName torrentDetails = "Loading...")
  ∧ (files torrentDetails ≠ [] →
       ∃ before largest after,
         files torrentDetails = before ++ largest :: after
         ∧ getLargestFileName torrentDetails = name largest
         ∧ Forall (λ g, (file_length g ≤ file_length largest)%Z) before
         ∧ Forall (λ g, (file_length g < file_length largest)%Z) after).
Proof.
  unfold getLargestFileName. destruct (files torrentDetails) as [| first rest].
  - by split.
  - split; [discriminate |]. intros _.
    destruct (reduce_last_largest first rest) as (before & after & Heq & Hb & Ha).
    by exists before, (foldl keep_larger first rest), after.
Qed.

Lemma X1_getLargestFileName_last_largest_witness :
  let file (n : string) (len : Z) :=
    {| name := n; file_length := len; included := true |} in
  let torrentDetails :=
    {| details_info_hash := "abc";
       files := [file "a.txt" 10%Z; file "b.mkv" 700%Z; file "c.mkv" 700%Z;
                 file "d.nfo" 1%Z] |} in
  getLargestFileName defaultDetails = "Loading..."
  ∧ getLargestFileName torrentDetails = "c.mkv"
  ∧ ∃ before largest after,
      files torrentDetails = before ++ largest :: after
      ∧ getLargestFileName torrentDetails = name largest
      ∧ Forall (λ g, (file_length g ≤ file_length largest)%Z) before
      ∧ Forall (λ g, (file_length g < file_length largest)%Z) after.
Proof.
  intros file torrentDetails. split_and!.
  - apply (X1_getLargestFileName_last_largest defaultDetails). reflexivity.
  - reflexivity.
  - apply (X1_getLargestFileName_last_largest torrentDetails). discriminate.
Defined.

(** ** [formatBytesToGB] *)

Section Format.

Local Open Scope Z_scope.

Lemma hundredths_nearest num den :
  0 < den →
  2 * den * hundredths num den ≤ 200 * num + den
  ∧ 200 * num + den < 2 * den * (hundredths num den + 1).
Proof.
  intros Hden. unfold hundredths. split.
  - apply Z.mul_div_le. lia.
  - pose proof (Z.mul_succ_div_gt (200 * num + den) (2 * den)). lia.
Qed.

Lemma hundredths_nonneg num den : 0 < den → 0 ≤ num → 0 ≤ hundredths num den.
Proof. intros Hden Hnum. unfold hundredths. apply Z.div_pos; lia. Qed.

Lemma string_length_append (s1 s2 : string) :
  String.length (s1 +:+ s2) = (String.length s1 + String.length s2)%nat.
Proof. induction s1 as [| c s1 IH]; simpl; [done | by rewrite IH]. Qed.

Lemma digit_char_zero d :
  0 ≤ d < 10 → digit_char d = digit_char 0 → d = 0.
Proof.
  intros Hd H. unfold digit_char in H.
  apply (f_equal N_of_ascii) in H.
  rewrite !N_ascii_embedding in H by lia. lia.
Qed.

Lemma two_digits_zero k : 0 ≤ k < 100 → two_digits k = "00"%string → k = 0.
Proof.
  intros Hk H. unfold two_digits in H.
  assert (digit_char 0 = "0"%char) as H0 by reflexivity.
  rewrite <- H0 in H. injection H as H1 H2.
  assert (k / 10 = 0) as Hq.
  { apply digit_char_zero; [| done].
    split; [apply Z.div_pos; lia | apply Z.div_lt_upper_bound; lia]. }
  assert (k mod 10 = 0) as Hr.
  { apply digit_char_zero; [apply Z.mod_pos_bound; lia | done]. }
  pose proof (Z.div_mod k 10). lia.
Qed.

Lemma fixed2_zero n : 0 ≤ n → fixed2 n = "0.00"%string → n = 0.
Proof.
  intros Hn H. unfold fixed2 in H.
  assert (0 ≤ n mod 100 < 100) as Hr by (apply Z.mod_pos_bound; lia).
  assert (0 ≤ n / 100) as Hq by (apply Z.div_pos; lia).
  pose proof (f_equal String.length H) as Hlen.
  rewrite string_length_append in Hlen. simpl in Hlen.
  remember (two_digits (n mod 100)) as dd eqn:Hdd.
  destruct (pretty (Z.to_N (n / 100))) as [| c [| c' s']] eqn:E;
    simpl in Hlen; try lia.
  simpl in H. injection H as -> H. subst dd.
  apply two_digits_zero in H; [| done].
  assert (Z.to_N (n / 100) = 0%N) as Hq0.
  { apply (inj pretty). by rewrite E. }
  pose proof (Z.div_mod n 100). lia.
Qed.

Lemma hundredths_whole k den : 0 < den → hundredths (k * den) den = 100 * k.
Proof.
  intros Hden. unfold hundredths. symmetry.
  apply (Z.div_unique_pos _ _ _ den); lia.
Qed.

(** X2: for a size the host holds exactly, the text [formatBytesToGB]
    gives is the two-decimal writing of a count of hundredths of a GiB
    that is within half a hundredth of the size. *)
Theorem X2_formatBytesToGB_nearest_hundredth bytes :
  0 ≤ bytes < 2 ^ 53 →
  ∃ n, 0 ≤ n
     ∧ formatBytesToGB bytes
       = (pretty (Z.to_N (n / 100)) +:+ "." +:+ two_digits (n mod 100))%string
     ∧ 2 * Z.abs (n * 2 ^ 30 - 100 * bytes) ≤ 2 ^ 30.
Proof.
  intros [Hlo Hhi]. exists (hundredths bytes (1024 * 1024 * 1024)).
  change (1024 * 1024 * 1024) with (2 ^ 30).
  pose proof (hundredths_nearest bytes (2 ^ 30)) as [H1 H2]; [lia |].
  split_and!.
  - apply hundredths_nonneg; lia.
  - unfold formatBytesToGB, toFixed2.
    change (1024 * 1024 * 1024) with (2 ^ 30).
    by rewrite (proj2 (Z.ltb_ge bytes 0) Hlo).
  - lia.
Qed.

Lemma X2_formatBytesToGB_nearest_hundredth_witness :
  formatBytesToGB 1610612736 = "1.50"%string
  ∧ ∃ n, 0 ≤ n
       ∧ formatBytesToGB 1610612736
         = (pretty (Z.to_N (n / 100)) +:+ "." +:+ two_digits (n mod 100))%string
       ∧ 2 * Z.abs (n * 2 ^ 30 - 100 * 1610612736) ≤ 2 ^ 30.
Proof.
  split; [reflexivity |].
  apply (X2_formatBytesToGB_nearest_hundredth 1610612736). lia.
Defined.

(** X3: a size is shown as 0.00 exactly when it is at most 5368709
    bytes (just under 5.12 MiB). *)
Theorem X3_formatBytesToGB_zero bytes :
  0 ≤ bytes < 2 ^ 53 →
  formatBytesToGB bytes = "0.00"%string ↔ bytes ≤ 5368709.
Proof.
  intros [Hlo Hhi]. unfold formatBytesToGB, toFixed2.
  rewrite (proj2 (Z.ltb_ge bytes 0) Hlo).
  change (1024 * 1024 * 1024) with 1073741824.
  pose proof (hundredths_nearest bytes 1073741824) as [H1 H2]; [lia |].
  pose proof (hundredths_nonneg bytes 1073741824) as H0.
  split.
  - intros H. apply fixed2_zero in H; [| apply H0; lia]. lia.
  - intros H. replace (hundredths bytes 1073741824) with 0; [reflexivity |].
    symmetry. unfold hundredths. apply Z.div_small. lia.
Qed.

Lemma X3_formatBytesToGB_zero_witness :
  formatBytesToGB 5368709 = "0.00"%string
  ∧ formatBytesToGB 5368710 ≠ "0.00"%string.
Proof.
  split.
  - apply (X3_formatBytesToGB_zero 5368709); lia.
  - intros H. apply (X3_formatBytesToGB_zero 5368710) in H; lia.
Defined.

(** X4: a whole number [k] of GiB is shown as [k] followed by ".00". *)
Theorem X4_formatBytesToGB_whole k :
  0 ≤ k → k * 2 ^ 30 < 2 ^ 53 →
  formatBytesToGB (k * 2 ^ 30) = (pretty (Z.to_N k) +:+ ".00")%string.
Proof.
  intros Hk _. unfold formatBytesToGB, toFixed2.
  change (1024 * 1024 * 1024) with (2 ^ 30).
  rewrite (proj2 (Z.ltb_ge (k * 2 ^ 30) 0)) by lia.
  rewrite hundredths_whole by lia. unfold fixed2.
  rewrite (Z.mul_comm 100 k), Z.div_mul, Z.mod_mul by lia.
  reflexivity.
Qed.

Lemma X4_formatBytesToGB_whole_witness :
  formatBytesToGB (42 * 2 ^ 30) = "42.00"%string.
Proof. apply (X4_formatBytesToGB_whole 42); lia. Defined.

End Format.

(** ** More on the request pipeline *)

Section RequestOutcome.

Variable apiUrl : string.
Variable fetch : string → RequestInit → option Response.
Variable stringify : JS.Json → string.

Implicit Types (data : option UploadPayload) (showError : bool) (st : RootState).

(** X5: a request is fulfilled exactly when a response arrives whose
    status is in 200..299 and whose body is read and is JSON, and then
    with the parsed body; in every other case it is rejected. *)
Theorem X5_makeRequest_fulfilled_iff (method_ path_ : string) data showError st json :
  (makeRequest apiUrl fetch stringify method_ path_ data showError st).1
  = JS.Fulfilled json
  ↔ ∃ response,
      fetch (apiUrl +:+ path_) (options_of method_ data) = Some response
      ∧ ok response = true
      ∧ response_body_fails response = false
      ∧ JSON.parse (response_body response) = Some json.
Proof.
  unfold makeRequest, response_json, response_text.
  destruct (fetch (apiUrl +:+ path_) (options_of method_ data)) as [response |];
    simpl.
  - destruct (ok response) eqn:Hok; simpl.
    + destruct (response_body_fails response) eqn:Hread; simpl.
      * split; [discriminate |].
        intros (r & Hr & _ & Hread' & _). injection Hr as <-. congruence.
      * destruct (JSON.parse (response_body response)) as [j |] eqn:Hparse; simpl.
        -- split.
           ++ intros H. injection H as <-. by exists response.
           ++ intros (r & Hr & _ & _ & Hj). injection Hr as <-. congruence.
        -- split; [discriminate |].
           intros (r & Hr & _ & _ & Hj). injection Hr as <-. congruence.
    + destruct (response_body_fails response); simpl.
      * split; [discriminate |].
        intros (r & Hr & Hok' & _). injection Hr as <-. congruence.
      * split; [discriminate |].
        intros (r & Hr & Hok' & _). injection Hr as <-. congruence.
  - split; [discriminate |]. by intros (r & Hr & _).
Qed.

(** X6: a request touches the state only to publish an error: with
    [showError] unset the state is unchanged; with [showError] set, the
    record the request is rejected with is stored as the closeable error
    and nothing else changes; a fulfilled request and a request rejected
    with an exception of the host leave the state unchanged. *)
Theorem X6_makeRequest_publishes_errors (method_ path_ : string) data showError st :
  let result := makeRequest apiUrl fetch stringify method_ path_ data showError st in
  (showError = false → result.2 = st)
  ∧ (∀ e, showError = true → result.1 = JS.Rejected (ErrorRecord e) →
       result.2 = setCloseableError (Some e) st)
  ∧ (∀ x, result.1 = JS.Rejected (Raw x) → result.2 = st)
  ∧ (∀ json, result.1 = JS.Fulfilled json → result.2 = st).
Proof.
  unfold makeRequest, response_json, response_text.
  destruct (fetch (apiUrl +:+ path_) (options_of method_ data)) as [response |];
    simpl.
  - destruct (ok response); simpl.
    + destruct (response_body_fails response); simpl; [by split_and! |].
      destruct (JSON.parse (response_body response)); simpl;
        split_and!; try done.
    + destruct (response_body_fails response); simpl; [by split_and! |].
      split_and!; try done.
      * by intros ->.
      * intros e -> H. by injection H as <-.
  - split_and!; try done.
    + by intros ->.
    + intros e -> H. by injection H as <-.
Qed.

End RequestOutcome.

Lemma X5_makeRequest_fulfilled_iff_witness :
  (makeRequest EmptyString
     (answering (Some (status_ok ("{" +:+ quoted "torrents" +:+ ": []}"))))
     stringify_unused "GET" "/torrents" None false Root_initial).1
  = JS.Fulfilled (JS.Object [("torrents", JS.Array [])]).
Proof.
  apply (X5_makeRequest_fulfilled_iff EmptyString).
  eexists. split_and!; reflexivity.
Defined.

Lemma X6_makeRequest_publishes_errors_witness :
  (makeRequest EmptyString (answering None) stringify_unused
     "POST" "/torrents?list_only=true&overwrite=true" None false Root_initial).2
  = Root_initial
  ∧ closeableError
      (makeRequest EmptyString (answering None) stringify_unused
         "POST" "/torrents?list_only=true&overwrite=true" None true Root_initial).2
    = Some {| error_id := None; method := Some "POST";
              path := Some "/torrents?list_only=true&overwrite=true";
              status := None; statusText := None;
              text := JS.String "network error" |}.
Proof.
  split.
  - apply (X6_makeRequest_publishes_errors EmptyString (answering None)
             stringify_unused "POST" "/torrents?list_only=true&overwrite=true"
             None false Root_initial). reflexivity.
  - rewrite (proj1 (proj2 (X6_makeRequest_publishes_errors EmptyString (answering None)
             stringify_unused "POST" "/torrents?list_only=true&overwrite=true"
             None true Root_initial)) _ eq_refl eq_refl).
    reflexivity.
Defined.

(** ** Series of ticks *)

Section Series.

Implicit Types (st : RootState) (stats : TorrentStats).

Lemma Root_ticks_app (l1 l2 : list (JS.Settled TorrentList Reason)) st :
  Root_ticks (l1 ++ l2) st = Root_ticks l2 (Root_ticks l1 st).
Proof. apply foldl_app. Qed.

Lemma Root_ticks_rejected (outcomes : list (JS.Settled TorrentList Reason)) st :
  Forall rejected outcomes →
  torrents (Root_ticks outcomes st) = torrents st
  ∧ closeableError (Root_ticks outcomes st) = closeableError st.
Proof.
  revert st. induction outcomes as [| r outcomes IH]; intros st Hall; [done |].
  apply Forall_cons in Hall as [Hr Hall].
  destruct r as [l | e]; [done |].
  change (Root_ticks (JS.Rejected e :: outcomes) st)
    with (Root_ticks outcomes (Root_tick (JS.Rejected e) st).1).
  destruct (IH (Root_tick (JS.Rejected e) st).1 Hall) as [-> ->]. by split.
Qed.

Lemma Root_ticks_last_fulfilled before fetched after st :
  Forall rejected after →
  torrents (Root_ticks (before ++ JS.Fulfilled fetched :: after) st)
  = Some (list_torrents fetched).
Proof.
  intros Hall. rewrite Root_ticks_app.
  change (Root_ticks (JS.Fulfilled fetched :: after) (Root_ticks before st))
    with (Root_ticks after (Root_tick (JS.Fulfilled fetched) (Root_ticks before st)).1).
  by rewrite (proj1 (Root_ticks_rejected after
                       (Root_tick (JS.Fulfilled fetched) (Root_ticks before st)).1 Hall)).
Qed.

(** X7: after any series of registry ticks, the tracked list is the one
    fetched by the most recent successful tick (so a failure never
    blanks it), and it is the initial one if no tick succeeded; the
    registry error is the rejection of the last tick, or none if the
    last tick succeeded; the closeable error is never touched. *)
Theorem X7_registry_keeps_last_good_list
    (outcomes : list (JS.Settled TorrentList Reason)) st :
  (∀ before fetched after,
     outcomes = before ++ JS.Fulfilled fetched :: after → Forall rejected after →
     torrents (Root_ticks outcomes st) = Some (list_torrents fetched))
  ∧ (Forall rejected outcomes → torrents (Root_ticks outcomes st) = torrents st)
  ∧ (∀ before e, outcomes = before ++ [JS.Rejected e] →
       otherError (Root_ticks outcomes st) = Some e)
  ∧ (∀ before fetched, outcomes = before ++ [JS.Fulfilled fetched] →
       otherError (Root_ticks outcomes st) = None)
  ∧ closeableError (Root_ticks outcomes st) = closeableError st.
Proof.
  split_and!.
  - intros before fetched after -> Hall. by apply Root_ticks_last_fulfilled.
  - intros Hall. by destruct (Root_ticks_rejected outcomes st Hall).
  - intros before e ->. by rewrite Root_ticks_app.
  - intros before fetched ->. by rewrite Root_ticks_app.
  - induction outcomes as [| r outcomes IH] using rev_ind; [done |].
    rewrite Root_ticks_app. simpl. by destruct r.
Qed.

Lemma X7_registry_keeps_last_good_list_witness :
  let one := {| list_torrents := [{| torrent_id := 0; info_hash := "aa" |}] |} in
  let failure := Raw SyntaxError in
  torrents (Root_ticks [JS.Rejected failure; JS.Fulfilled one; JS.Rejected failure]
              Root_initial)
  = Some (list_torrents one)
  ∧ torrents (Root_ticks [JS.Rejected failure] Root_initial) = None
  ∧ otherError (Root_ticks [JS.Fulfilled one; JS.Rejected failure] Root_initial)
    = Some failure.
Proof.
  intros one failure. split_and!.
  - apply (proj1 (X7_registry_keeps_last_good_list _ Root_initial)
             [JS.Rejected failure] one [JS.Rejected failure]); [reflexivity |].
    repeat constructor.
  - apply (proj1 (proj2 (X7_registry_keeps_last_good_list [JS.Rejected failure]
                           Root_initial))).
    repeat constructor.
  - apply (proj1 (proj2 (proj2 (X7_registry_keeps_last_good_list _ Root_initial)))
             [JS.Fulfilled one] failure). reflexivity.
Defined.

(** X8: what [TorrentsList] shows after a series of ticks from the
    initial state.  Once a tick has succeeded it shows the list of the
    most recent successful tick (the message when that list is empty),
    with or without a fetch in flight: the spinner and the blank do not
    come back.  Before any success it shows the spinner while a fetch is
    in flight and nothing otherwise. *)
Theorem X8_TorrentsList_after_ticks
    (outcomes : list (JS.Settled TorrentList Reason)) (loading : bool) :
  let shown := TorrentsList (torrents (Root_ticks outcomes Root_initial)) loading in
  (∀ before fetched after,
     outcomes = before ++ JS.Fulfilled fetched :: after → Forall rejected after →
     shown = match list_torrents fetched with
             | [] => ShowNoTorrents
             | rows => ShowRows rows
             end)
  ∧ (Forall rejected outcomes →
       shown = if loading then ShowSpinner else ShowNothing).
Proof.
  simpl. split.
  - intros before fetched after -> Hall.
    rewrite Root_ticks_last_fulfilled by done.
    unfold TorrentsList. by destruct (list_torrents fetched).
  - intros Hall.
    by rewrite (proj1 (Root_ticks_rejected outcomes Root_initial Hall)).
Qed.

Lemma X8_TorrentsList_after_ticks_witness :
  let one := {| list_torrents := [{| torrent_id := 0; info_hash := "aa" |}] |} in
  let failure := Raw SyntaxError in
  TorrentsList
    (torrents (Root_ticks [JS.Fulfilled one; JS.Rejected failure] Root_initial)) true
  = ShowRows (list_torrents one)
  ∧ TorrentsList (torrents (Root_ticks [JS.Rejected failure] Root_initial)) true
    = ShowSpinner.
Proof.
  intros one failure. split.
  - apply (proj1 (X8_TorrentsList_after_ticks
                    [JS.Fulfilled one; JS.Rejected failure] true)
             [] one [JS.Rejected failure]); [reflexivity |].
    repeat constructor.
  - apply (proj2 (X8_TorrentsList_after_ticks [JS.Rejected failure] true)).
    repeat constructor.
Defined.

Lemma Torrent_polls_rejected (outcomes : list (JS.Settled TorrentStats Reason)) stats :
  Forall rejected outcomes → Torrent_polls outcomes stats = stats.
Proof.
  revert stats. induction outcomes as [| r outcomes IH]; intros stats Hall; [done |].
  apply Forall_cons in Hall as [Hr Hall].
  destruct r as [fetched | e]; [done |].
  change (Torrent_polls (JS.Rejected e :: outcomes) stats)
    with (Torrent_polls outcomes (update (JS.Rejected e) stats).1).
  by rewrite IH.
Qed.

(** X9: after any series of stats polls, the stats shown are those of
    the most recent successful poll, and the ones shown before if no
    poll succeeded: a failed poll freezes the row, it never clears
    it. *)
Theorem X9_stats_keep_last_good_snapshot
    (outcomes : list (JS.Settled TorrentStats Reason)) stats :
  (∀ before fetched after,
     outcomes = before ++ JS.Fulfilled fetched :: after → Forall rejected after →
     Torrent_polls outcomes stats = fetched)
  ∧ (Forall rejected outcomes → Torrent_polls outcomes stats = stats).
Proof.
  split.
  - intros before fetched after -> Hall.
    unfold Torrent_polls. rewrite foldl_app.
    change (foldl (λ stats r, (update r stats).1)
              (foldl (λ stats r, (update r stats).1) stats before)
              (JS.Fulfilled fetched :: after))
      with (Torrent_polls after fetched).
    by apply Torrent_polls_rejected.
  - apply Torrent_polls_rejected.
Qed.

Lemma X9_stats_keep_last_good_snapshot_witness :
  Torrent_polls
    [JS.Fulfilled (sample_stats 1024 4096); JS.Rejected (Raw TypeError)] defaultStats
  = sample_stats 1024 4096
  ∧ Torrent_polls [JS.Rejected (Raw TypeError)] defaultStats = defaultStats.
Proof.
  split.
  - apply (proj1 (X9_stats_keep_last_good_snapshot _ defaultStats)
             [] (sample_stats 1024 4096) [JS.Rejected (Raw TypeError)]);
      [reflexivity |].
    repeat constructor.
  - apply (proj2 (X9_stats_keep_last_good_snapshot _ defaultStats)).
    repeat constructor.
Defined.

End Series.

(** ** More on [customSetInterval] *)

Section AdaptiveMore.

Import CustomSetInterval.

Implicit Types (s : state) (evs : list Event) (v : JS.Value).

Lemma reachable_situation (interval : Z) evs s :
  run (customSetInterval interval) evs = Some s →
  stopped s ∨ armed s ∨ running s.
Proof.
  apply run_situation. right; left. apply customSetInterval_armed.
Qed.

Lemma fire_counts s id s1 :
  step s (Fire id) = Some s1 → calls s1 = S (calls s).
Proof.
  unfold step. destruct (Timers.fire id (host s)); [| discriminate].
  by intros [= <-].
Qed.

(** A call that resolves to a delay sets the next timer with it. *)
Lemma settle_rearms s1 v :
  running s1 → fatal (JS.Fulfilled v) = false →
  ∃ s2, step s1 (Settle (JS.Fulfilled v)) = Some s2
      ∧ armed s2 ∧ scheduled_delay s2 = Some v ∧ calls s2 = calls s1.
Proof.
  intros [Hf Hp] Hv. simpl in Hv. unfold step. rewrite Hf.
  eexists. split; [reflexivity |].
  unfold executeCallback_resume. rewrite Hv. simpl.
  split_and!; [| | done].
  - split; [by rewrite Hf |]. eexists. split; [reflexivity |]. simpl.
    rewrite Hp. apply insert_empty.
  - unfold scheduled_delay. simpl. apply lookup_insert_eq.
Qed.

(** A call that rejects or resolves to nothing leaves no timer. *)
Lemma settle_fatal s1 r :
  running s1 → fatal r = true →
  ∃ s2, step s1 (Settle r) = Some s2 ∧ stopped s2 ∧ calls s2 = calls s1.
Proof.
  intros [Hf Hp] Hr. unfold step. rewrite Hf.
  eexists. split; [reflexivity |].
  unfold executeCallback_resume. destruct r as [v | e]; simpl in *.
  - rewrite Hr. simpl. split; [| done]. split; simpl; [by rewrite Hf | done].
  - split; [| done]. split; simpl; [by rewrite Hf | done].
Qed.

(** X10: when a timer of a scheduler fires and the call it starts
    resolves to a value other than [null] and [undefined], exactly one
    timer is pending afterwards, its delay is that value, no call is in
    flight and one more call has been made. *)
Theorem X10_resolved_delay_is_next_delay (interval : Z) evs s id s1 v :
  run (customSetInterval interval) evs = Some s →
  step s (Fire id) = Some s1 →
  fatal (JS.Fulfilled v) = false →
  ∃ s2 id',
    step s1 (Settle (JS.Fulfilled v)) = Some s2
    ∧ timeoutId s2 = Some id'
    ∧ Timers.pending (host s2) = {[ id' := v ]}
    ∧ scheduled_delay s2 = Some v
    ∧ in_flight s2 = 0
    ∧ calls s2 = S (calls s).
Proof.
  intros Hrun Hfire Hv.
  pose proof (fire_running s id s1 (reachable_situation interval evs s Hrun) Hfire)
    as Hrunning.
  destruct (settle_rearms s1 v Hrunning Hv) as (s2 & Hstep & Harmed & Hdelay & Hcalls).
  destruct Harmed as (Hf & id' & Hid & Hp).
  exists s2, id'. split_and!; try done.
  - rewrite Hp. f_equal.
    unfold scheduled_delay in Hdelay. rewrite Hid, Hp in Hdelay.
    rewrite lookup_singleton_eq in Hdelay. by injection Hdelay.
  - rewrite Hcalls. by apply (fire_counts s id).
Qed.

Lemma X10_resolved_delay_is_next_delay_witness :
  ∃ s2 id',
    run Torrent_effect [Fire 1; Settle (JS.Fulfilled (JS.num 5000))] = Some s2
    ∧ timeoutId s2 = Some id'
    ∧ Timers.pending (host s2) = {[ id' := JS.num 5000 ]}
    ∧ calls s2 = 1.
Proof.
  destruct (step Torrent_effect (Fire 1)) as [s1 |] eqn:E;
    [| vm_compute in E; discriminate E].
  destruct (X10_resolved_delay_is_next_delay 0 [] Torrent_effect 1 s1 (JS.num 5000)
              eq_refl E eq_refl)
    as (s2 & id' & Hstep & Hid & Hp & _ & _ & Hcalls).
  exists s2, id'. split_and!; try done.
  cbn [run]. fold Torrent_effect. by rewrite E, Hstep.
Defined.

(** X11: when the call a timer starts rejects, or resolves to [null] or
    [undefined], the scheduler is dead: no timer is pending, and
    whatever happens next no call is ever made again. *)
Theorem X11_fatal_result_stops_scheduler (interval : Z) evs s id s1 r evs' s' :
  run (customSetInterval interval) evs = Some s →
  step s (Fire id) = Some s1 →
  fatal r = true →
  run s1 (Settle r :: evs') = Some s' →
  calls s' = calls s1
  ∧ in_flight s' = 0
  ∧ Timers.pending (host s') = ∅.
Proof.
  intros Hrun Hfire Hr Hrun'.
  pose proof (fire_running s id s1 (reachable_situation interval evs s Hrun) Hfire)
    as Hrunning.
  destruct (settle_fatal s1 r Hrunning Hr) as (s2 & Hstep & Hstopped & Hcalls).
  cbn [run] in Hrun'. rewrite Hstep in Hrun'.
  destruct (stopped_stays s2 evs' s' Hstopped Hrun') as [[Hf Hp] Hc].
  split_and!; [congruence | done | done].
Qed.

Lemma X11_fatal_result_stops_scheduler_witness :
  ∃ s1 s',
    step Root_effect (Fire 1) = Some s1
    ∧ run s1 [Settle (JS.Fulfilled JS.Undefined); Clear] = Some s'
    ∧ calls s' = calls s1 ∧ Timers.pending (host s') = ∅.
Proof.
  destruct (step Root_effect (Fire 1)) as [s1 |] eqn:E;
    [| vm_compute in E; discriminate E].
  destruct (run s1 [Settle (JS.Fulfilled JS.Undefined); Clear]) as [s' |] eqn:E'.
  - exists s1, s'. split_and!; try done.
    + apply (X11_fatal_result_stops_scheduler 500 [] Root_effect 1 s1
               (JS.Fulfilled JS.Undefined) [Clear] s' eq_refl E eq_refl E').
    + apply (X11_fatal_result_stops_scheduler 500 [] Root_effect 1 s1
               (JS.Fulfilled JS.Undefined) [Clear] s' eq_refl E eq_refl E').
  - exfalso. vm_compute in E. injection E as <-. vm_compute in E'. discriminate E'.
Defined.

(** X12: the handle stops a scheduler for good when it is run while no
    call is in flight: whatever happens afterwards, no call is made. *)
Theorem X12_clear_between_calls_stops (interval : Z) evs s evs' s' :
  run (customSetInterval interval) evs = Some s →
  in_flight s = 0 →
  run (clearCustomInterval s) evs' = Some s' →
  calls s' = calls s ∧ in_flight s' = 0 ∧ Timers.pending (host s') = ∅.
Proof.
  intros Hrun Hf Hrun'.
  assert (stopped (clearCustomInterval s)) as Hstop.
  { split; [done |]. simpl.
    destruct (reachable_situation interval evs s Hrun)
      as [[_ Hp] | [[_ (id & Hid & Hp)] | [Hf' _]]].
    - destruct (timeoutId s); simpl; rewrite Hp; [apply delete_empty | done].
    - rewrite Hid. simpl. rewrite Hp. apply delete_singleton_eq.
    - rewrite Hf in Hf'. discriminate. }
  destruct (stopped_stays _ evs' s' Hstop Hrun') as [[Hf' Hp'] Hc].
  by split_and!.
Qed.

Lemma X12_clear_between_calls_stops_witness :
  ∃ s s',
    run Torrent_effect [Fire 1; Settle (JS.Fulfilled (JS.num 500))] = Some s
    ∧ run (clearCustomInterval s) [Clear; Clear] = Some s'
    ∧ calls s' = calls s.
Proof.
  destruct (run Torrent_effect [Fire 1; Settle (JS.Fulfilled (JS.num 500))])
    as [s |] eqn:E; [| vm_compute in E; discriminate E].
  destruct (run (clearCustomInterval s) [Clear; Clear]) as [s' |] eqn:E';
    [| discriminate E'].
  exists s, s'. split_and!; try done.
  apply (X12_clear_between_calls_stops 0 _ s [Clear; Clear] s' E); [| done].
  vm_compute in E. by injection E as <-.
Defined.

(** X13: the two pollers never stop by themselves.  Whatever a registry
    tick's request settles to, the tick resolves to 500 or 5000, and
    whatever a stats poll's request settles to, the poll resolves to
    500, 5000 or 10000; so when a timer of the poller fires, the next
    timer is set with that delay. *)
Theorem X13_pollers_always_reschedule evs s id s1 :
  (∀ r st, run Root_effect evs = Some s → step s (Fire id) = Some s1 →
     ∃ s2, step s1 (Settle (JS.Fulfilled (Root_tick r st).2)) = Some s2
         ∧ scheduled_delay s2 = Some (Root_tick r st).2
         ∧ ((Root_tick r st).2 = JS.num 500 ∨ (Root_tick r st).2 = JS.num 5000))
  ∧ (∀ r stats, run Torrent_effect evs = Some s → step s (Fire id) = Some s1 →
       ∃ s2, step s1 (Settle (JS.Fulfilled (update r stats).2)) = Some s2
           ∧ scheduled_delay s2 = Some (update r stats).2
           ∧ ((update r stats).2 = JS.num 500 ∨ (update r stats).2 = JS.num 5000
              ∨ (update r stats).2 = JS.num 10000)).
Proof.
  split.
  - intros r st Hrun Hfire.
    pose proof (fire_running s id s1 (reachable_situation _ evs s Hrun) Hfire)
      as Hrunning.
    assert ((Root_tick r st).2 = JS.num 500 ∨ (Root_tick r st).2 = JS.num 5000) as Hv.
    { destruct r; [by left | by right]. }
    destruct (settle_rearms s1 (Root_tick r st).2 Hrunning) as (s2 & Hstep & _ & Hd & _).
    { by destruct Hv as [-> | ->]. }
    by exists s2.
  - intros r stats Hrun Hfire.
    pose proof (fire_running s id s1 (reachable_situation _ evs s Hrun) Hfire)
      as Hrunning.
    assert ((update r stats).2 = JS.num 500 ∨ (update r stats).2 = JS.num 5000
            ∨ (update r stats).2 = JS.num 10000) as Hv.
    { destruct r as [fetched | e]; simpl; [| by right; right].
      destruct (torrentIsDone fetched); [by right; left | by left]. }
    destruct (settle_rearms s1 (update r stats).2 Hrunning) as (s2 & Hstep & _ & Hd & _).
    { by destruct Hv as [-> | [-> | ->]]. }
    by exists s2.
Qed.

Lemma X13_pollers_always_reschedule_witness :
  ∃ s1 s2,
    step Root_effect (Fire 1) = Some s1
    ∧ step s1 (Settle (JS.Fulfilled
                 (Root_tick (JS.Rejected (Raw SyntaxError)) Root_initial).2)) = Some s2
    ∧ scheduled_delay s2 = Some (JS.num 5000).
Proof.
  destruct (step Root_effect (Fire 1)) as [s1 |] eqn:E;
    [| vm_compute in E; discriminate E].
  destruct (proj1 (X13_pollers_always_reschedule [] Root_effect 1 s1)
              (JS.Rejected (Raw SyntaxError)) Root_initial eq_refl E)
    as (s2 & Hstep & Hd & _).
  by exists s1, s2.
Defined.

End AdaptiveMore.

(** ** More on [loopUntilSuccess] and the details effect *)

Section RetryMore.

Import LoopUntilSuccess.

Implicit Types (s : state) (evs : list Event).

(** X14: the handle of [loopUntilSuccess] always works: once it has
    run, whether a call was in flight or not, no call is ever made
    again and no timer is pending. *)
Theorem X14_loopUntilSuccess_clear_stops (interval : Z) evs s evs' s' :
  run (loopUntilSuccess interval) evs = Some s →
  run (clearCustomInterval s) evs' = Some s' →
  calls s' = calls s ∧ Timers.pending (host s') = ∅.
Proof.
  intros Hrun Hrun'.
  assert (spent (clearCustomInterval s)) as Hspent.
  { destruct (run_waiting_or_spent interval evs s Hrun) as [Hw | [Hc Hp]].
    - destruct Hw as (_ & Hc & id & delay & Hid & Hp).
      split; simpl; [lia |]. rewrite Hid. simpl. rewrite Hp.
      apply delete_singleton_eq.
    - split; [done |]. simpl.
      destruct (timeoutId s); simpl; rewrite Hp; [apply delete_empty | done]. }
  destruct (run_spent evs' _ s' Hspent Hrun') as [[_ Hp] Hc]. by split.
Qed.

Lemma X14_loopUntilSuccess_clear_stops_witness :
  ∃ s s',
    run (loopUntilSuccess 1000) [Fire 1] = Some s
    ∧ run (clearCustomInterval s) [Settle (JS.Rejected JS.Undefined); Clear] = Some s'
    ∧ calls s' = calls s.
Proof.
  destruct (run (loopUntilSuccess 1000) [Fire 1]) as [s |] eqn:E;
    [| vm_compute in E; discriminate E].
  destruct (run (clearCustomInterval s) [Settle (JS.Rejected JS.Undefined); Clear])
    as [s' |] eqn:E'.
  - exists s, s'. split_and!; try done.
    apply (X14_loopUntilSuccess_clear_stops 1000 [Fire 1] s _ s' E E').
  - exfalso. vm_compute in E. injection E as <-. vm_compute in E'. discriminate E'.
Defined.

Lemma Torrent_details_no_timer outcomes s (detailsResponse : TorrentDetails) :
  Timers.pending (host s) = ∅ →
  Torrent_details outcomes s detailsResponse = (s, detailsResponse).
Proof.
  intros Hp. destruct outcomes as [| r rest]; [done |]. cbn [Torrent_details].
  destruct (timeoutId s) as [id |]; [| done].
  by rewrite (fire_needs_timer_loop s id Hp).
Qed.

Lemma Torrent_details_first r rest s id s1 (detailsResponse : TorrentDetails) :
  timeoutId s = Some id → step s (Fire id) = Some s1 →
  Timers.pending (host s1) = ∅ →
  calls (Torrent_details (r :: rest) s detailsResponse).1 = calls s1
  ∧ (Torrent_details (r :: rest) s detailsResponse).2
    = match r with
      | JS.Fulfilled fetched => fetched
      | JS.Rejected _ => detailsResponse
      end.
Proof.
  intros Hid Hstep Hp. cbn [Torrent_details]. rewrite Hid, Hstep.
  destruct r as [fetched | e].
  - destruct (resume_sets_no_timer (JS.Fulfilled JS.Undefined) s1) as [Hh Hc].
    rewrite Torrent_details_no_timer by (by rewrite Hh). by split.
  - destruct (resume_sets_no_timer (JS.Rejected JS.Undefined) s1) as [Hh Hc].
    rewrite Torrent_details_no_timer by (by rewrite Hh). by split.
Qed.

(** X15: of the details requests only the first counts.  If it
    succeeds, its value is stored and never replaced; if it fails, the
    default details stay, whatever later requests would have answered,
    and the row keeps the name "Loading...".  In both cases the request
    function has been called once. *)
Theorem X15_details_first_request_only
    (r : JS.Settled TorrentDetails Reason)
    (rest : list (JS.Settled TorrentDetails Reason)) :
  let result := Torrent_details (r :: rest) (loopUntilSuccess 1000) defaultDetails in
  calls result.1 = 1
  ∧ result.2 = match r with
               | JS.Fulfilled fetched => fetched
               | JS.Rejected _ => defaultDetails
               end
  ∧ (rejected r → getLargestFileName result.2 = "Loading...").
Proof.
  intros result.
  destruct (Torrent_details_first r rest (loopUntilSuccess 1000) 1
              (executeCallback_call
                 {| host := {| Timers.pending := ∅; Timers.next := 2 |};
                    timeoutId := Some 1; interval := 1000;
                    in_flight := 0; calls := 0 |})
              defaultDetails) as [Hc Hd]; [done | by vm_compute | done |].
  subst result. split_and!; [done | done |].
  intros Hr. rewrite Hd. by destruct r.
Qed.

Lemma X15_details_first_request_only_witness :
  let later :=
    {| details_info_hash := "aa";
       files := [{| name := "movie.mkv"; file_length := 700; included := true |}] |} in
  getLargestFileName
    (Torrent_details [JS.Rejected (Raw TypeError); JS.Fulfilled later]
       (LoopUntilSuccess.loopUntilSuccess 1000) defaultDetails).2
  = "Loading...".
Proof.
  intros later.
  apply (X15_details_first_request_only (JS.Rejected (Raw TypeError))
           [JS.Fulfilled later]).
  exact I.
Defined.

End RetryMore.

(** ** The upload dialog *)

Section UploadDialog.

Implicit Types (d : Dialog) (ev : DialogEvent) (evs : list DialogEvent).

Lemma selection_ok_nil n : selection_ok n [].
Proof. split; [apply NoDup_nil_2 | apply Forall_nil_2]. Qed.

Lemma clear_inv d :
  Dialog_inv d →
  Dialog_inv (clear d)
  ∧ dlg_data (clear d) = NoData ∧ dlg_fileList (clear d) = None
  ∧ dlg_selectedFiles (clear d) = []
  ∧ dlg_uploadError (clear d) = dlg_uploadError d.
Proof.
  intros (Hl & Hu & Hsel & Hnone).
  assert (dlg_selectedFiles (clear d) = []) as Hempty.
  { unfold clear, setFileList. simpl.
    destruct (dlg_fileList d); [done | by apply Hnone]. }
  split_and!; try done.
  unfold Dialog_inv. rewrite Hempty. split_and!; try done.
  apply selection_ok_nil.
Qed.

Lemma Dialog_step_inv d ev d' :
  Dialog_inv d → Dialog_step d ev = Some d' → Dialog_inv d'.
Proof.
  intros Hinv Hstep. pose proof Hinv as (Hl & Hu & Hsel & Hnone).
  destruct ev as [data | r | i | | r |]; simpl in Hstep.
  - destruct (same_data data (dlg_data d)); injection Hstep as <-; [done |].
    unfold preview_effect. by destruct data.
  - destruct (previews_in_flight d) as [| n]; [discriminate |].
    injection Hstep as <-. destruct r as [response | e].
    + unfold Dialog_inv, preview_settled, shown_files. simpl.
      split_and!; try done. apply selection_ok_reset.
    + unfold preview_settled.
      match goal with
      | |- Dialog_inv (setLoading false (clear ?x)) =>
          assert (Dialog_inv x) as Hx by done;
          destruct (clear_inv x Hx) as ((Hl' & Hu' & Hsel' & Hnone') & _)
      end.
      by split_and!.
  - rewrite Hl in Hstep. case_bool_decide as Hi; [| discriminate].
    injection Hstep as <-. unfold Dialog_inv, shown_files in *. simpl.
    split_and!; try done.
    + by apply selection_ok_toggle.
    + intros Hnone'. rewrite Hnone' in Hi. simpl in Hi. lia.
  - destruct (OK_posts d); [| discriminate]. by injection Hstep as <-.
  - destruct (uploads_in_flight d) as [| n]; [discriminate |].
    injection Hstep as <-. destruct r as [json | e]; simpl.
    + match goal with
      | |- Dialog_inv (clear ?x) =>
          assert (Dialog_inv x) as Hx by done; by destruct (clear_inv x Hx)
      end.
    + done.
  - injection Hstep as <-. by destruct (clear_inv d Hinv).
Qed.

Lemma Dialog_initial_inv : Dialog_inv Dialog_initial.
Proof. split_and!; try done. apply selection_ok_nil. Qed.

Lemma Dialog_run_inv d evs d' :
  Dialog_inv d → Dialog_run d evs = Some d' → Dialog_inv d'.
Proof.
  revert d. induction evs as [| ev evs IH]; intros d Hinv Hrun; simpl in Hrun.
  - by injection Hrun as <-.
  - destruct (Dialog_step d ev) as [d1 |] eqn:E; [| discriminate].
    eapply IH; [| done]. by eapply Dialog_step_inv.
Qed.

Lemma OK_posts_empty d : dlg_selectedFiles d = [] → OK_posts d = None.
Proof.
  intros H. unfold OK_posts, click_OK, OK_disabled. rewrite H. simpl.
  by rewrite !orb_true_r.
Qed.

(** X16: in every state the upload dialog can reach, the selection has
    no index twice and only indices of the manifest shown; and as long
    as no manifest is held (the preview has not answered yet, it
    failed, or the dialog was closed) the selection is empty and OK is
    disabled. *)
Theorem X16_dialog_selection_fits_manifest evs d :
  Dialog_run Dialog_initial evs = Some d →
  selection_ok (length (shown_files d)) (dlg_selectedFiles d)
  ∧ (dlg_fileList d = None →
       dlg_selectedFiles d = [] ∧ OK_posts d = None
       ∧ Dialog_step d ClickOK = None).
Proof.
  intros Hrun.
  destruct (Dialog_run_inv _ evs d Dialog_initial_inv Hrun) as (_ & _ & Hsel & Hnone).
  split; [done |]. intros Hfl. specialize (Hnone Hfl).
  split_and!; [done | by apply OK_posts_empty |].
  simpl. by rewrite OK_posts_empty.
Qed.

Lemma X16_dialog_selection_fits_manifest_witness :
  let evs :=
    [SetData (MagnetInput_onClick (Some "magnet:?xt=urn:btih:aa"));
     PreviewSettled (JS.Fulfilled
       {| added_id := None;
          details := {| details_info_hash := "aa"; files := manifest 3 |} |});
     Toggle 0; Toggle 1; Toggle 1] in
  ∃ d, Dialog_run Dialog_initial evs = Some d
     ∧ dlg_selectedFiles d = [2; 1]
     ∧ selection_ok (length (shown_files d)) (dlg_selectedFiles d).
Proof.
  intros evs.
  destruct (Dialog_run Dialog_initial evs) as [d |] eqn:E;
    [| vm_compute in E; discriminate E].
  exists d. split; [reflexivity |].
  pose proof (proj1 (X16_dialog_selection_fits_manifest evs d E)) as H.
  vm_compute in E. injection E as <-. split; [reflexivity | exact H].
Defined.

(** X17: the loading and the uploading flag are never raised.  So in
    every state the dialog can reach the spinner is not shown, and OK
    is disabled exactly when the selection is empty: it stays enabled
    while an upload is in flight. *)
Theorem X17_dialog_flags_never_raised evs d :
  Dialog_run Dialog_initial evs = Some d →
  dlg_loading d = false ∧ dlg_uploading d = false
  ∧ (OK_posts d = None ↔ dlg_selectedFiles d = []).
Proof.
  intros Hrun.
  destruct (Dialog_run_inv _ evs d Dialog_initial_inv Hrun) as (Hl & Hu & _ & _).
  split_and!; [done | done |]. split; [| apply OK_posts_empty].
  unfold OK_posts, click_OK, OK_disabled. rewrite Hl, Hu. simpl.
  destruct (dlg_selectedFiles d); [done | discriminate].
Qed.

Lemma X17_dialog_flags_never_raised_witness :
  let evs :=
    [SetData (MagnetInput_onClick (Some "magnet:?xt=urn:btih:aa"));
     PreviewSettled (JS.Fulfilled
       {| added_id := None;
          details := {| details_info_hash := "aa"; files := manifest 2 |} |});
     ClickOK; ClickOK] in
  ∃ d, Dialog_run Dialog_initial evs = Some d
     ∧ uploads_in_flight d = 2
     ∧ dlg_loading d = false ∧ dlg_uploading d = false.
Proof.
  intros evs.
  destruct (Dialog_run Dialog_initial evs) as [d |] eqn:E;
    [| vm_compute in E; discriminate E].
  exists d. split; [reflexivity |].
  destruct (X17_dialog_flags_never_raised evs d E) as (Hl & Hu & _).
  vm_compute in E. injection E as <-. by split_and!.
Defined.

Lemma click_OK_all_selected (fileList : list TorrentFile) :
  click_OK false false fileList (seq 0 (length fileList))
  = match fileList with
    | [] => None
    | _ => Some "/torrents?overwrite=true"
    end.
Proof.
  destruct fileList as [| f l]; [done |].
  unfold click_OK, OK_disabled, handleUpload_url.
  rewrite query_all_selected; [done |].
  intros id Hid. apply elem_of_seq. lia.
Qed.

(** X18: when a preview answers, every file of the manifest is
    selected, in order; OK pressed right away posts
    [/torrents?overwrite=true] without [only_files], and for a manifest
    without files OK is disabled. *)
Theorem X18_confirm_after_preview evs d response d' :
  Dialog_run Dialog_initial evs = Some d →
  Dialog_step d (PreviewSettled (JS.Fulfilled response)) = Some d' →
  dlg_fileList d' = Some (files (details response))
  ∧ dlg_selectedFiles d' = seq 0 (length (files (details response)))
  ∧ OK_posts d' = match files (details response) with
                  | [] => None
                  | _ => Some "/torrents?overwrite=true"
                  end.
Proof.
  intros Hrun Hstep.
  destruct (Dialog_run_inv _ evs d Dialog_initial_inv Hrun) as (Hl & Hu & _ & _).
  simpl in Hstep. destruct (previews_in_flight d) as [| n]; [discriminate |].
  injection Hstep as <-.
  match goal with
  | |- context [preview_settled ?r ?x] => set (d' := preview_settled r x)
  end.
  assert (dlg_fileList d' = Some (files (details response))) as Hfl by done.
  assert (dlg_selectedFiles d' = seq 0 (length (files (details response)))) as Hsel.
  { subst d'. unfold preview_settled, setFileList. simpl.
    destruct (dlg_fileList d); apply reset_seq. }
  assert (dlg_loading d' = false) as Hl' by done.
  assert (dlg_uploading d' = false) as Hu' by done.
  split_and!; [done | done |].
  unfold OK_posts, shown_files. rewrite Hfl, Hsel, Hl', Hu'. simpl.
  apply click_OK_all_selected.
Qed.

Lemma X18_confirm_after_preview_witness :
  let response :=
    {| added_id := None;
       details := {| details_info_hash := "aa"; files := manifest 3 |} |} in
  ∃ d d',
    Dialog_run Dialog_initial [SetData (FileInput_onFileChange [[]])] = Some d
    ∧ Dialog_step d (PreviewSettled (JS.Fulfilled response)) = Some d'
    ∧ dlg_selectedFiles d' = [0; 1; 2]
    ∧ OK_posts d' = Some "/torrents?overwrite=true".
Proof.
  intros response.
  destruct (Dialog_run Dialog_initial [SetData (FileInput_onFileChange [[]])])
    as [d |] eqn:E; [| vm_compute in E; discriminate E].
  destruct (Dialog_step d (PreviewSettled (JS.Fulfilled response))) as [d' |] eqn:E'.
  - exists d, d'. split; [reflexivity |]. split; [exact E' |].
    destruct (X18_confirm_after_preview _ d response d' E E') as (_ & Hsel & Hok).
    by split.
  - exfalso. vm_compute in E. injection E as <-. vm_compute in E'. discriminate E'.
Defined.

Lemma Dialog_step_uploadError d ev d' :
  Dialog_inv d → Dialog_step d ev = Some d' →
  dlg_uploadError d' = uploadError_after ev (dlg_uploadError d).
Proof.
  intros Hinv Hstep.
  destruct ev as [data | r | i | | r |]; simpl in Hstep.
  - destruct (same_data data (dlg_data d)); injection Hstep as <-; [done |].
    unfold preview_effect. by destruct data.
  - destruct (previews_in_flight d); [discriminate |].
    injection Hstep as <-. by destruct r.
  - destruct (dlg_loading d); [discriminate |].
    case_bool_decide; [| discriminate]. by injection Hstep as <-.
  - destruct (OK_posts d); [| discriminate]. by injection Hstep as <-.
  - destruct (uploads_in_flight d); [discriminate |].
    injection Hstep as <-. by destruct r.
  - by injection Hstep as <-.
Qed.

Lemma Dialog_run_uploadError d evs d' :
  Dialog_inv d → Dialog_run d evs = Some d' →
  is_Some (dlg_uploadError d')
  ↔ is_Some (dlg_uploadError d) ∨ Exists failed_upload evs.
Proof.
  revert d. induction evs as [| ev evs IH]; intros d Hinv Hrun; simpl in Hrun.
  - injection Hrun as <-. rewrite Exists_nil. tauto.
  - destruct (Dialog_step d ev) as [d1 |] eqn:E; [| discriminate].
    rewrite (IH d1 (Dialog_step_inv d ev d1 Hinv E) Hrun).
    rewrite (Dialog_step_uploadError d ev d1 Hinv E), Exists_cons.
    destruct ev as [data | r | i | | [json | e] |]; simpl; try tauto.
    split; [intros _; right; by left |]. intros _. left. by eexists.
Qed.

(** X19: the error shown under the file list is set by a failed upload
    and by nothing else, and nothing clears it: in every state the
    dialog can reach an upload error is held exactly when some upload
    has failed before, also after the dialog was closed and opened
    again on another payload. *)
Theorem X19_upload_error_is_never_cleared evs d :
  Dialog_run Dialog_initial evs = Some d →
  is_Some (dlg_uploadError d) ↔ Exists failed_upload evs.
Proof.
  intros Hrun.
  rewrite (Dialog_run_uploadError _ evs d Dialog_initial_inv Hrun). simpl.
  split; [| by right]. intros [[e He] | H]; [discriminate | done].
Qed.

Lemma X19_upload_error_is_never_cleared_witness :
  let evs :=
    [SetData (MagnetInput_onClick (Some "magnet:?xt=urn:btih:aa"));
     PreviewSettled (JS.Fulfilled
       {| added_id := None;
          details := {| details_info_hash := "aa"; files := manifest 2 |} |});
     ClickOK; UploadSettled (JS.Rejected (Raw SyntaxError)); Hide;
     SetData (MagnetInput_onClick (Some "magnet:?xt=urn:btih:bb"))] in
  ∃ d, Dialog_run Dialog_initial evs = Some d
     ∧ showModal (dlg_data d) = true
     ∧ is_Some (dlg_uploadError d).
Proof.
  intros evs.
  destruct (Dialog_run Dialog_initial evs) as [d |] eqn:E;
    [| vm_compute in E; discriminate E].
  exists d. split; [reflexivity |].
  assert (is_Some (dlg_uploadError d)) as H.
  { apply (X19_upload_error_is_never_cleared evs d E).
    do 3 apply Exists_cons_tl. apply Exists_cons_hd. exact I. }
  vm_compute in E. injection E as <-. by split.
Defined.

Lemma same_data_true new old : same_data new old = true → new = old.
Proof.
  destruct new as [| | [a | a]], old as [| | [b | b]]; simpl; try discriminate;
    try done.
  intros H. apply bool_decide_eq_true in H. by subst.
Qed.

Lemma same_data_refl_link link :
  same_data (Payload (MagnetOrUrl link)) (Payload (MagnetOrUrl link)) = true.
Proof. simpl. by apply bool_decide_eq_true. Qed.

(** X20: what opens the dialog.  A prompt that is cancelled or left
    empty sets [data] to [null]: the dialog is closed afterwards and no
    preview is requested.  Any other text opens the dialog on that
    text, and a preview is requested unless the dialog already holds
    the same text, in which case nothing changes.  A file input change
    with a file opens the dialog on it and requests a preview.  A file
    input change without a file sets [data] to [undefined], which also
    opens the dialog, and a preview is requested unless [data] was
    [undefined] already, in which case nothing changes. *)
Theorem X20_what_opens_the_dialog d :
  (∀ m d', (m = None ∨ m = Some EmptyString) →
     Dialog_step d (SetData (MagnetInput_onClick m)) = Some d' →
     showModal (dlg_data d') = false
     ∧ previews_in_flight d' = previews_in_flight d)
  ∧ (∀ link d', link ≠ EmptyString →
       Dialog_step d (SetData (MagnetInput_onClick (Some link))) = Some d' →
       dlg_data d' = Payload (MagnetOrUrl link)
       ∧ showModal (dlg_data d') = true
       ∧ (dlg_data d ≠ Payload (MagnetOrUrl link) →
            previews_in_flight d' = S (previews_in_flight d))
       ∧ (dlg_data d = Payload (MagnetOrUrl link) → d' = d))
  ∧ (∀ file others d',
       Dialog_step d (SetData (FileInput_onFileChange (file :: others))) = Some d' →
       dlg_data d' = Payload (TorrentFileBytes file)
       ∧ showModal (dlg_data d') = true
       ∧ previews_in_flight d' = S (previews_in_flight d))
  ∧ (∀ d',
       Dialog_step d (SetData (FileInput_onFileChange [])) = Some d' →
       dlg_data d' = NoFile
       ∧ showModal (dlg_data d') = true
       ∧ (dlg_data d ≠ NoFile → previews_in_flight d' = S (previews_in_flight d))
       ∧ (dlg_data d = NoFile → d' = d)).
Proof.
  split_and!.
  - intros m d' Hm Hstep.
    assert (MagnetInput_onClick m = NoData) as Hclick
      by (by destruct Hm as [-> | ->]).
    rewrite Hclick in Hstep. cbn [Dialog_step] in Hstep.
    destruct (same_data NoData (dlg_data d)) eqn:Hsame; injection Hstep as <-.
    + apply same_data_true in Hsame. by rewrite <- Hsame.
    + done.
  - intros link d' Hlink Hstep.
    assert (MagnetInput_onClick (Some link) = Payload (MagnetOrUrl link)) as Hclick
      by (by destruct link).
    rewrite Hclick in Hstep. cbn [Dialog_step] in Hstep.
    destruct (same_data (Payload (MagnetOrUrl link)) (dlg_data d)) eqn:Hsame;
      injection Hstep as <-.
    + apply same_data_true in Hsame. rewrite <- Hsame. by split_and!.
    + split_and!; try done.
      intros Heq. rewrite Heq, same_data_refl_link in Hsame. discriminate.
  - intros file others d' Hstep. simpl in Hstep. by injection Hstep as <-.
  - intros d' Hstep. cbn [Dialog_step FileInput_onFileChange] in Hstep.
    destruct (same_data NoFile (dlg_data d)) eqn:Hsame; injection Hstep as <-.
    + apply same_data_true in Hsame. rewrite <- Hsame. by split_and!.
    + split_and!; try done. intros Heq. rewrite Heq in Hsame. discriminate.
Qed.

Lemma X20_what_opens_the_dialog_witness :
  ∃ d', Dialog_step Dialog_initial (SetData (FileInput_onFileChange [])) = Some d'
      ∧ showModal (dlg_data d') = true
      ∧ previews_in_flight d' = 1.
Proof.
  eexists. split; [reflexivity |].
  destruct (proj2 (proj2 (proj2 (X20_what_opens_the_dialog Dialog_initial)))
              _ eq_refl) as (_ & Hshow & Hprev & _).
  split; [exact Hshow |]. apply Hprev. discriminate.
Defined.

End UploadDialog.

(** ** A preview that answers late, and the alert *)

Section LatePreview.

Implicit Types (d : Dialog) (evs : list DialogEvent).

(** X21: hiding the dialog does not cancel a preview in flight.  If the
    dialog is hidden while a preview is in flight, that preview answers
    afterwards, and the dialog is then opened on another payload, the
    dialog shows the manifest of the earlier preview with every file
    selected and OK enabled, while the preview of the new payload is
    still in flight. *)
Theorem X21_late_preview_survives_hide evs d response p :
  Dialog_run Dialog_initial evs = Some d →
  previews_in_flight d > 0 →
  ∃ d', Dialog_run d [Hide; PreviewSettled (JS.Fulfilled response);
                      SetData (Payload p)] = Some d'
      ∧ dlg_data d' = Payload p
      ∧ showModal (dlg_data d') = true
      ∧ dlg_fileList d' = Some (files (details response))
      ∧ dlg_selectedFiles d' = seq 0 (length (files (details response)))
      ∧ previews_in_flight d' = previews_in_flight d
      ∧ OK_posts d' = match files (details response) with
                      | [] => None
                      | _ => Some "/torrents?overwrite=true"
                      end.
Proof.
  intros Hrun Hprev.
  destruct (Dialog_run_inv _ evs d Dialog_initial_inv Hrun) as (Hl & Hu & _ & _).
  destruct (previews_in_flight d) as [| n] eqn:Hn; [lia |].
  assert (previews_in_flight (clear d) = S n) as Hn' by done.
  destruct (Dialog_step (clear d) (PreviewSettled (JS.Fulfilled response)))
    as [d2 |] eqn:E2; [| by (simpl in E2; rewrite Hn in E2)].
  exists (preview_effect (setData (Payload p) d2)).
  cbn [Dialog_run].
  change (Dialog_step d Hide) with (Some (clear d)). cbv iota beta.
  rewrite E2.
  assert (dlg_data d2 = NoData) as Hd2.
  { unfold Dialog_step in E2. rewrite Hn' in E2. by injection E2 as <-. }
  assert (Dialog_step d2 (SetData (Payload p))
          = Some (preview_effect (setData (Payload p) d2))) as E3.
  { cbn [Dialog_step]. rewrite Hd2. by destruct p. }
  rewrite E3. clear E3 Hd2.
  unfold Dialog_step in E2. rewrite Hn' in E2. injection E2 as <-.
  split_and!; try reflexivity.
  - simpl. apply reset_seq.
  - unfold OK_posts, shown_files. simpl. rewrite Hu.
    rewrite reset_seq. apply click_OK_all_selected.
Qed.

Lemma X21_late_preview_survives_hide_witness :
  let response :=
    {| added_id := None;
       details := {| details_info_hash := "aa"; files := manifest 2 |} |} in
  ∃ d d',
    Dialog_run Dialog_initial [SetData (Payload (MagnetOrUrl "magnet:?xt=urn:btih:aa"))]
    = Some d
    ∧ Dialog_run d [Hide; PreviewSettled (JS.Fulfilled response);
                    SetData (Payload (MagnetOrUrl "magnet:?xt=urn:btih:bb"))] = Some d'
    ∧ dlg_data d' = Payload (MagnetOrUrl "magnet:?xt=urn:btih:bb")
    ∧ dlg_fileList d' = Some (manifest 2)
    ∧ OK_posts d' = Some "/torrents?overwrite=true".
Proof.
  intros response.
  destruct (Dialog_run Dialog_initial
              [SetData (Payload (MagnetOrUrl "magnet:?xt=urn:btih:aa"))])
    as [d |] eqn:E; [| vm_compute in E; discriminate E].
  assert (previews_in_flight d > 0) as Hprev.
  { vm_compute in E. injection E as <-. simpl. lia. }
  destruct (X21_late_preview_survives_hide _ d response
              (MagnetOrUrl "magnet:?xt=urn:btih:bb") E Hprev)
    as (d' & Hrun & Hdata & _ & Hfl & _ & _ & Hok).
  by exists d, d'.
Defined.

End LatePreview.

Section Alerts.

Variable apiUrl : string.
Variable fetch : string → RequestInit → option Response.
Variable stringify : JS.Json → string.

Implicit Types (data : option UploadPayload) (showError remove : bool).
Implicit Types (st : RootState) (response : Response).

(** X22: the alert [Error] renders for what a request was rejected
    with, for a request whose method is not empty.  After a network
    failure: "Error calling", the method and the path, then "network
    error".  After a response with a non-zero status outside 200..299
    whose body is read and is not JSON: the same heading, then the
    status and the status text, then the body.  After a response with a
    status in 200..299 whose body is read and is not JSON: an alert
    without any text. *)
Theorem X22_alert_for_a_rejected_request
    (method_ path_ : string) data showError st remove :
  method_ ≠ EmptyString →
  let outcome := (makeRequest apiUrl fetch stringify method_ path_ data showError st).1 in
  let button := if remove then [CloseButton] else [] in
  let heading :=
    Strong [Text "Error calling "; Text method_; Text " "; Text path_; Text ": "] in
  (fetch (apiUrl +:+ path_) (options_of method_ data) = None →
     ∃ reason, outcome = JS.Rejected reason
       ∧ Error (Some reason) remove
         = Alert ([heading; Text "network error"] ++ button))
  ∧ (∀ response,
       fetch (apiUrl +:+ path_) (options_of method_ data) = Some response →
       ok response = false → response_status response ≠ 0%Z →
       response_body_fails response = false →
       JSON.parse (response_body response) = None →
       ∃ reason, outcome = JS.Rejected reason
         ∧ Error (Some reason) remove
           = Alert ([heading;
                     Strong [Num (inject_Z (response_status response)); Text " ";
                             Text (response_statusText response); Text ": "];
                     Text (response_body response)] ++ button))
  ∧ (∀ response,
       fetch (apiUrl +:+ path_) (options_of method_ data) = Some response →
       ok response = true →
       response_body_fails response = false →
       JSON.parse (response_body response) = None →
       ∃ reason, outcome = JS.Rejected reason
         ∧ Error (Some reason) remove = Alert button).
Proof.
  intros Hm outcome button heading. split_and!.
  - intros Hfetch. eexists. split.
    + by apply makeRequest_network_error.
    + unfold Error. simpl. by destruct method_.
  - intros response Hfetch Hok Hstatus Hread Hparse.
    destruct (makeRequest_http_error apiUrl fetch stringify method_ path_ data
                showError st response Hfetch Hok Hread)
      as (e & He & _ & Hmeth & Hpath & Hs & Hst & Ht).
    exists (ErrorRecord e). split; [done |].
    rewrite Hparse in Ht.
    unfold Error. rewrite Hmeth, Hpath, Hs, Hst, Ht. simpl.
    destruct method_; [done |].
    by destruct (response_status response).
  - intros response Hfetch Hok Hread Hparse.
    exists (Raw SyntaxError). split; [| done].
    unfold outcome.
    by rewrite (makeRequest_success_status_bad_json apiUrl fetch stringify
                  method_ path_ data showError st response Hfetch Hok Hread Hparse).
Qed.

End Alerts.

Lemma X22_alert_for_a_rejected_request_witness :
  ∃ reason,
    (makeRequest EmptyString (answering (Some (status_ok "oops"))) stringify_unused
       "GET" "/torrents" None false Root_initial).1 = JS.Rejected reason
    ∧ Error (Some reason) false = Alert [].
Proof.
  apply (proj2 (proj2 (X22_alert_for_a_rejected_request EmptyString
                         (answering (Some (status_ok "oops"))) stringify_unused
                         "GET" "/torrents" None false Root_initial false
                         ltac:(discriminate)))
           (status_ok "oops")); reflexivity.
Defined.

(** ** Clicking a check box twice *)

Section DoubleToggle.

Implicit Types (selectedFiles : list nat) (i : nat).

Lemma filter_ne_absent selectedFiles i :
  i ∉ selectedFiles → filter (λ index, index ≠ i) selectedFiles = selectedFiles.
Proof.
  induction selectedFiles as [| x l IH]; intros Hi; [done |].
  apply not_elem_of_cons in Hi as [Hx Hl].
  rewrite filter_cons_True by congruence. by rewrite IH.
Qed.

Lemma filter_eq_present selectedFiles i :
  NoDup selectedFiles → i ∈ selectedFiles →
  filter (λ index, ¬ index ≠ i) selectedFiles = [i].
Proof.
  induction selectedFiles as [| x l IH]; intros Hnd Hi.
  - by apply elem_of_nil in Hi.
  - apply NoDup_cons in Hnd as [Hx Hnd].
    destruct (decide (x = i)) as [-> | Hne].
    + rewrite filter_cons_True by (intros H; by apply H).
      f_equal. clear IH Hi Hnd.
      induction l as [| y l IH]; [done |].
      apply not_elem_of_cons in Hx as [Hy Hl].
      rewrite filter_cons_False by (intros H; apply H; congruence).
      by apply IH.
    + rewrite filter_cons_False by (intros H; by apply H).
      apply IH; [done |]. apply elem_of_cons in Hi as [-> | Hi]; done.
Qed.

(** X23: clicking the same check box twice.  On a file that was not
    selected the list comes back unchanged.  On a file that was
    selected, in a list without repetition, the same files are selected
    afterwards, with that file moved to the end of the list. *)
Theorem X23_toggle_twice selectedFiles i :
  (i ∉ selectedFiles →
     handleToggleFile (handleToggleFile selectedFiles i) i = selectedFiles)
  ∧ (NoDup selectedFiles → i ∈ selectedFiles →
       handleToggleFile (handleToggleFile selectedFiles i) i
       = filter (λ index, index ≠ i) selectedFiles ++ [i]
       ∧ handleToggleFile (handleToggleFile selectedFiles i) i ≡ₚ selectedFiles).
Proof.
  split.
  - intros Hi. rewrite (toggle_absent selectedFiles i Hi).
    rewrite toggle_present by (apply elem_of_app; right; apply list_elem_of_here).
    rewrite filter_app, filter_ne_absent by done.
    rewrite filter_cons_False by (intros H; by apply H).
    by rewrite filter_nil, app_nil_r.
  - intros Hnd Hi. rewrite (toggle_present selectedFiles i Hi).
    rewrite toggle_absent by (rewrite list_elem_of_filter; tauto).
    split; [done |].
    rewrite <- (filter_app_complement (λ index, index ≠ i) selectedFiles) at 2.
    by rewrite filter_eq_present.
Qed.

Lemma X23_toggle_twice_witness :
  handleToggleFile (handleToggleFile [0; 2] 1) 1 = [0; 2]
  ∧ handleToggleFile (handleToggleFile [0; 1; 2] 1) 1 = [0; 2; 1]
  ∧ handleToggleFile (handleToggleFile [0; 1; 2] 1) 1 ≡ₚ [0; 1; 2].
Proof.
  assert (NoDup [0; 1; 2]) as Hnd.
  { apply NoDup_ListNoDup. repeat constructor; simpl; lia. }
  assert (1 ∈ [0; 1; 2]) as Hin.
  { apply list_elem_of_In. simpl. lia. }
  split_and!.
  - apply (X23_toggle_twice [0; 2] 1).
    intros H. apply list_elem_of_In in H. simpl in H. lia.
  - apply (proj2 (X23_toggle_twice [0; 1; 2] 1) Hnd Hin).
  - apply (proj2 (X23_toggle_twice [0; 1; 2] 1) Hnd Hin).
Defined.

End DoubleToggle.
